(** * prometheus-elb-discovery: the grouping and serialization engine

    A shallow embedding of [prometheus-elb-discovery.go] and the proofs of
    the properties its specification states about it.

    Conventions of the embedding.
    - A Go [string] is a byte sequence: Rocq's [string] (a list of 8-bit
      [ascii]).  [fmt.Sprintf] with [%s] verbs is concatenation, [%d] is the
      decimal numeral of the integer.
    - A Go pointer field of an SDK struct ([*string], [*int64], [*State])
      is an [option]: [None] is the nil pointer.  Dereferencing nil is a
      run-time panic, which the embedding makes explicit in [result].
      The elements of the slices the SDK hands back are structs it has
      allocated itself; they are modelled by the records themselves.
    - A Go [map[string]V] is a [gmap string V].  The order in which a
      [range] statement visits the keys of a map is not fixed by the
      language; every function that ranges over a map takes the order as
      an argument, and the theorems quantify over all orders ([range_order]).
    - [log.Fatal] ends the process: it is the [Fatal] outcome. *)

From Stdlib Require Import ZArith Ascii.
From stdpp Require Import base option list gmap strings sorting pretty.

Open Scope Z_scope.

(** ** Outcomes of a Go function call *)

Inductive result (A : Type) : Type :=
| Ok (a : A)           (* the call returns [a] *)
| Panic                (* run-time panic: nil dereference, index out of range *)
| Fatal (msg : string) (* [log.Fatal]/[log.Fatalf]: message logged, exit 1 *).
Arguments Ok {A} a.
Arguments Panic {A}.
Arguments Fatal {A} msg.

#[global] Instance result_ret : MRet result := fun _ a => Ok a.
#[global] Instance result_bind : MBind result := fun _ _ f r =>
  match r with
  | Ok a => f a
  | Panic => Panic
  | Fatal msg => Fatal msg
  end.

#[global] Instance result_eq_dec {A} `{EqDecision A} : EqDecision (result A).
Proof. solve_decision. Defined.

(** [*p] *)
Definition deref {A} (p : option A) : result A :=
  match p with
  | Some a => Ok a
  | None => Panic
  end.

(** [for _, x := range l { s = body(s, x) }] over a slice, where the body
    may panic or exit. *)
Fixpoint for_range {A St : Type} (body : St -> A -> result St) (l : list A)
    (s : St) : result St :=
  match l with
  | [] => Ok s
  | x :: rest => s' ← body s x; for_range body rest s'
  end.

(** ** Data model *)

(** The fields of the AWS SDK structs that the program reads. *)
Module ec2.
Record Tag := { Key : option string; Value : option string }.
Record InstanceState := { Code : option Z }.
Record Instance := {
  InstanceId : option string;
  PrivateIpAddress : option string;
  State : option InstanceState;
  Tags : list Tag
}.
Record Reservation := { Instances : list Instance }.
End ec2.

(** [InstanceId'] is the [InstanceId] field of [elb.InstanceState]; the
    name without the prime is taken by [elb.Instance]. *)
Module elb.
Record Instance := { InstanceId : option string }.
Record InstanceState := { InstanceId' : option string; State : option string }.
Record DescribeInstanceHealthOutput := { InstanceStates : list InstanceState }.
Record LoadBalancerDescription := { Instances : list Instance }.
End elb.

(** [TargetGroup] is a collection of related hosts that prometheus monitors.
    The program builds every group with a slice and a map that are not nil,
    so the two fields are a list and a finite map. *)
Record TargetGroup := {
  Targets : list string;
  Labels : gmap string string
}.

Record Tag := {
  Key : string;
  FilterName : string;
  FilterValue : string
}.
Abbreviation Tags := (list Tag).

(** ** Map iteration order *)

(** [order m] is the sequence in which one [range] statement visits the keys
    of [m]: each key once, in any order. *)
Definition range_order {V} (order : gmap string V -> list string) : Prop :=
  forall m, order m ≡ₚ (map_to_list m).*1.

(** Two orders to run the definitions with. *)
Definition ascending_range {V} (m : gmap string V) : list string :=
  merge_sort String.le (map_to_list m).*1.
Definition descending_range {V} (m : gmap string V) : list string :=
  reverse (ascending_range m).

(** ** sort.Strings *)

(** [sort.Strings] sorts in increasing byte-wise lexicographic order.  The
    order of a sorted sequence of strings is unique (see [sort_Strings_unique]),
    so the sorting algorithm of the library is immaterial. *)
Definition sort_Strings (keys : list string) : list string :=
  merge_sort String.le keys.

(** ** Health filter *)

(** filter down the instance ids to only in service ones *)
Definition filterHealthyInstances_body
    (healthyInstances : list (option string)) (instance : elb.InstanceState)
  : result (list (option string)) :=
  st ← deref (elb.State instance);
  if decide (st = "InService")
  then Ok (healthyInstances ++ [elb.InstanceId' instance])
  else Ok healthyInstances.

Definition filterHealthyInstances (output : elb.DescribeInstanceHealthOutput)
  : result (list (option string)) :=
  for_range filterHealthyInstances_body (elb.InstanceStates output) [].

(** ** Grouping engine *)

Fixpoint getTag_loop (ts : list ec2.Tag) (key : string) : result string :=
  match ts with
  | [] => Ok ""
  | t :: rest =>
      k ← deref (ec2.Key t);
      if decide (k = key) then deref (ec2.Value t) else getTag_loop rest key
  end.

Definition getTag (instance : ec2.Instance) (key : string) : result string :=
  getTag_loop (ec2.Tags instance) key.

(** One iteration of the signature loop: [fmt.Sprintf] with the format
    [%s|%s=%s] applied to the key so far, the tag key and the value that
    [getTag] finds for it. *)
Definition signature_body (instance : ec2.Instance) (key tagKey : string)
  : result string :=
  v ← getTag instance tagKey;
  Ok (key +:+ "|" +:+ tagKey +:+ "=" +:+ v).

Definition signature (instance : ec2.Instance) (tags : list string)
  : result string :=
  for_range (signature_body instance) tags "".

Definition labels_body (instance : ec2.Instance)
    (labels : gmap string string) (tagKey : string)
  : result (gmap string string) :=
  tagVal ← getTag instance tagKey;
  if decide (tagVal ≠ "") then Ok (<[tagKey := tagVal]> labels) else Ok labels.

Definition new_labels (instance : ec2.Instance) (tags : list string)
  : result (gmap string string) :=
  for_range (labels_body instance) tags ∅.

(** [fmt.Sprintf] with the format [%s:%d] applied to the private address
    and the port. *)
Definition target_of (port : Z) (ip : string) : string :=
  ip +:+ ":" +:+ pretty port.

(** One iteration of the loop over the instances.  The map holds pointers to
    the groups, one pointer per key, so appending to [targetGroup.Targets]
    updates the entry stored under [key]. *)
Definition groupByTags_body (port : Z) (tags : list string)
    (targetGroups : gmap string TargetGroup) (instance : ec2.Instance)
  : result (gmap string TargetGroup) :=
  st ← deref (ec2.State instance);
  code ← deref (ec2.Code st);
  if decide (code ≠ 16) then Ok targetGroups (* continue *) else
  key ← signature instance tags;
  created ← match targetGroups !! key with
            | Some targetGroup => Ok (targetGroup, targetGroups)
            | None =>
                labels ← new_labels instance tags;
                let targetGroup := {| Labels := labels; Targets := [] |} in
                Ok (targetGroup, <[key := targetGroup]> targetGroups)
            end;
  let '(targetGroup, targetGroups) := created in
  ip ← deref (ec2.PrivateIpAddress instance);
  let target := target_of port ip in
  Ok (<[key := {| Targets := Targets targetGroup ++ [target];
                  Labels := Labels targetGroup |}]> targetGroups).

Definition groupByTags (port : Z) (instances : list ec2.Instance)
    (tags : list string) : result (gmap string TargetGroup) :=
  for_range (groupByTags_body port tags) instances ∅.

(** ** Serializer *)

(** *** encoding/json *)

(** The part of [encoding/json] that [marshalTargetGroups] relies on: the
    values a slice of [*TargetGroup] encodes to, and the layout that
    [json.MarshalIndent] gives them.  The quoting of a string literal
    (escapes, invalid UTF-8) belongs to the library and is a parameter
    [quote] of the printer. *)
Module json.

#[warnings="-register-all"]
Inductive value :=
| Null
| Str (s : string)
| Arr (elems : list value)
| Obj (fields : list (string * value)).

Definition newline : string := String "010"%char "".

Section Printer.
Variable quote : string -> string.
Variables prefix indent : string.

(** A line break followed by the prefix and [depth] copies of the
    indentation. *)
Definition break (depth : nat) : string :=
  newline +:+ prefix +:+ String.concat "" (replicate depth indent).

(** [json.Indent] applied to the compact encoding: an empty array or
    object stays closed on one line, every element or field of another
    one starts a line one level deeper, and a colon is followed by one
    space. *)
Fixpoint print (depth : nat) (v : value) : string :=
  match v with
  | Null => "null"
  | Str s => quote s
  | Arr [] => "[]"
  | Arr elems =>
      "[" +:+ break (S depth)
      +:+ String.concat ("," +:+ break (S depth)) (map (print (S depth)) elems)
      +:+ break depth +:+ "]"
  | Obj [] => "{}"
  | Obj fields =>
      "{" +:+ break (S depth)
      +:+ String.concat ("," +:+ break (S depth))
            (map (fun f => quote (fst f) +:+ ": " +:+ print (S depth) (snd f))
                 fields)
      +:+ break depth +:+ "}"
  end.
End Printer.

(** A [map[string]string] encodes to an object whose keys are sorted. *)
Definition of_labels (labels : gmap string string) : value :=
  Obj (map (fun k => (k, Str (default "" (labels !! k))))
           (merge_sort String.le (map_to_list labels).*1)).

(** A [*TargetGroup] encodes to [null] when nil and else to an object with
    the fields in the order of the struct, under the names of their
    [json] tags. *)
Definition of_TargetGroup (tg : option TargetGroup) : value :=
  match tg with
  | None => Null
  | Some tg =>
      Obj [("targets", Arr (map Str (Targets tg)));
           ("labels", of_labels (Labels tg))]
  end.

Definition MarshalIndent (quote : string -> string)
    (tgList : list (option TargetGroup)) (prefix indent : string) : string :=
  print quote prefix indent 0 (Arr (map of_TargetGroup tgList)).

(** The quoting of a string that needs no escape: printable ASCII other
    than the double quote, the backslash and the characters [<], [>] and
    [&]. *)
Definition quote_plain (s : string) : string :=
  String "034"%char s +:+ String "034"%char "".

End json.

(** [order] is the order in which the [range] statement visits the keys of
    [targetGroups].  [targetGroups[k]] is the pointer stored under [k], nil
    for a key the map does not have.  [json.MarshalIndent] returns no error
    on a slice of groups, whose leaves are strings, so the [log.Fatal]
    branch is never taken and the function returns the bytes. *)
Definition marshalTargetGroups (quote : string -> string)
    (order : gmap string TargetGroup -> list string)
    (targetGroups : gmap string TargetGroup) : string :=
  (* We need to transform targetGroups into a values list sorted by key *)
  let keys := foldl (fun keys k => keys ++ [k]) [] (order targetGroups) in
  let keys := sort_Strings keys in
  let tgList := foldl (fun tgList k => tgList ++ [targetGroups !! k]) [] keys in
  json.MarshalIndent quote tgList "" "  ".

(** ** Atomic publisher *)

(** The files of the machine, the bytes written to standard output so far,
    and the calls the process has made to the operating system and to the
    two AWS services, oldest first. *)
Inductive event :=
| SysWriteFile (name data : string)
| SysRename (oldpath newpath : string)
| SysStdoutWrite (data : string)
| NetDescribeLoadBalancers (region : string) (names : list string)
| NetDescribeInstanceHealth (region name : string) (instances : list elb.Instance)
| NetDescribeInstances (region : string) (ids : list (option string))
| LogPrintln (msg : string).

Record World := {
  files : gmap string string;
  stdout : string;
  calls : list event
}.

Definition record (e : event) (w : World) : World :=
  {| files := files w; stdout := stdout w; calls := calls w ++ [e] |}.

(** The operating system decides whether a call fails and what a failed
    write leaves behind; an error is its message, [None] is the nil error. *)
Record OS := {
  os_WriteFile : gmap string string -> string -> string ->
                 gmap string string * option string;
  os_Rename : gmap string string -> string -> string ->
              gmap string string * option string;
  os_StdoutWrite : string -> string -> string * option string
}.

Definition ioutil_WriteFile (os : OS) (name data : string) (w : World)
  : World * option string :=
  let '(fs, err) := os_WriteFile os (files w) name data in
  (record (SysWriteFile name data)
     {| files := fs; stdout := stdout w; calls := calls w |}, err).

Definition os_Rename' (os : OS) (oldpath newpath : string) (w : World)
  : World * option string :=
  let '(fs, err) := os_Rename os (files w) oldpath newpath in
  (record (SysRename oldpath newpath)
     {| files := fs; stdout := stdout w; calls := calls w |}, err).

Definition os_Stdout_Write (os : OS) (b : string) (w : World)
  : World * option string :=
  let '(out, err) := os_StdoutWrite os (stdout w) b in
  (record (SysStdoutWrite b)
     {| files := files w; stdout := out; calls := calls w |}, err).

Definition atomicWriteFile (os : OS) (filename data tmpSuffix : string)
    (w : World) : World * option string :=
  let '(w, err) := ioutil_WriteFile os (filename +:+ tmpSuffix) data w in
  match err with
  | Some e => (w, Some e)
  | None =>
      let '(w, err) := os_Rename' os (filename +:+ tmpSuffix) filename w in
      match err with
      | Some e => (w, Some e)
      | None => (w, None)
      end
  end.

(** ** Reservations *)

Definition flattenReservations (reservations : list ec2.Reservation)
  : list ec2.Instance :=
  foldl (fun instances r => instances ++ ec2.Instances r) [] reservations.

(** ** Tag filter spec *)

(** [strings.Split(s, sep)] for a separator of one byte, which is what both
    calls of the program pass. *)
Fixpoint strings_Split (s : string) (sep : ascii) : list string :=
  match s with
  | "" => [""]
  | String c rest =>
      if decide (c = sep) then "" :: strings_Split rest sep
      else match strings_Split rest sep with
           | field :: fields => String c field :: fields
           | [] => [String c ""]
           end
  end.

(** [l[i]] *)
Definition index {A} (l : list A) (i : nat) : result A :=
  match l !! i with
  | Some x => Ok x
  | None => Panic
  end.

(** [for i, x := range l] from index [i] on. *)
Fixpoint for_range_from {A St : Type} (body : St -> nat -> A -> result St)
    (i : nat) (l : list A) (s : St) : result St :=
  match l with
  | [] => Ok s
  | x :: rest => s' ← body s i x; for_range_from body (S i) rest s'
  end.

Definition zero_Tag : Tag := {| Key := ""; FilterName := ""; FilterValue := "" |}.

(** One iteration of the loop over the fields.  [tags] has the length of
    the fields, so the assignment to [tags[i]] is within bounds. *)
Definition parseTags_body (tags : Tags) (i : nat) (t : string) : result Tags :=
  let parts := strings_Split t "="%char in
  match length parts with
  | 1%nat =>
      Ok (<[i := {| Key := t; FilterName := "tag-key"; FilterValue := t |}]> tags)
  | 2%nat =>
      p0 ← index parts 0;
      p1 ← index parts 1;
      Ok (<[i := {| Key := p0; FilterName := "tag:" +:+ p0; FilterValue := p1 |}]>
            tags)
  | _ => Fatal ("Unrecognized tag filter " +:+ t)
  end.

Definition parseTags (tagsRaw : string) : result Tags :=
  let fields := strings_Split tagsRaw ","%char in
  f0 ← index fields 0;
  if decide (f0 = "" /\ length fields = 1%nat) then Ok [] else
  let tags := replicate (length fields) zero_Tag in
  for_range_from parseTags_body 0 fields tags.

Definition Keys_body (st : gmap string bool * list string) (t : Tag)
  : gmap string bool * list string :=
  let '(seen, keys) := st in
  if negb (default false (seen !! Key t))
  then (<[Key t := true]> seen, keys ++ [Key t])
  else (seen, keys).

Definition Keys (tags : Tags) : list string :=
  snd (foldl Keys_body (∅, []) tags).

(** ** Key discovery fallback *)

Definition allTagKeys_tag (tagSet : gmap string ()) (t : ec2.Tag)
  : result (gmap string ()) :=
  k ← deref (ec2.Key t);
  Ok (<[k := tt]> tagSet).

Definition allTagKeys_instance (tagSet : gmap string ()) (instance : ec2.Instance)
  : result (gmap string ()) :=
  for_range allTagKeys_tag (ec2.Tags instance) tagSet.

(** [order] is the order in which the [range] statement visits [tagSet]. *)
Definition allTagKeys (order : gmap string () -> list string)
    (instances : list ec2.Instance) : result (list string) :=
  tagSet ← for_range allTagKeys_instance instances ∅;
  let tags := foldl (fun tags tag => tags ++ [tag]) [] (order tagSet) in
  Ok (sort_Strings tags).

(** ** The program *)

(** The values [flag.Parse] leaves in the flag variables. *)
Record Flags := {
  flag_port : Z;
  flag_dest : string;
  flag_region : string;
  flag_elb : string;
  flag_tags : string
}.

Definition default_Flags : Flags :=
  {| flag_port := 80; flag_dest := "-"; flag_region := "us-west-2";
     flag_elb := ""; flag_tags := "Name" |}.

(** The package-level variables that [initFlags] sets. *)
Record Globals := {
  dest : string;
  port : Z;
  region : string;
  elbName : string;
  tags : Tags
}.

Definition initFlags (parsed : Flags) : result Globals :=
  tags ← parseTags (flag_tags parsed);
  Ok {| dest := flag_dest parsed; port := flag_port parsed;
        region := flag_region parsed; elbName := flag_elb parsed;
        tags := tags |}.

(** The two collaborators: what each request is answered with, a response
    or the message of an error. *)
Record AWS := {
  session_NewSession : nat -> option string;
  elb_DescribeLoadBalancers :
    string -> list string -> list elb.LoadBalancerDescription + string;
  elb_DescribeInstanceHealth :
    string -> string -> list elb.Instance ->
    elb.DescribeInstanceHealthOutput + string;
  ec2_DescribeInstances :
    string -> list (option string) -> list ec2.Reservation + string
}.

(** [fmt.Println] of the operands, the write error ignored as the program
    ignores it. *)
Definition fmt_Println (os : OS) (msg : string) (w : World) : World :=
  fst (os_Stdout_Write os (msg +:+ json.newline) w).

(** The grouping keys [main] passes to the grouping engine. *)
Definition main_tagKeys (order : gmap string () -> list string) (tags : Tags)
    (instances : list ec2.Instance) : result (list string) :=
  let tagKeys := Keys tags in
  if decide (length tagKeys = 0%nat) then allTagKeys order instances
  else Ok tagKeys.

(** The last step of [main]: the document goes to standard output or, through
    [atomicWriteFile], to the file [dest]. *)
Definition main_publish (os : OS) (dest b : string) (w : World)
  : World * result () :=
  let '(w, err) :=
    if decide (dest = "-") then os_Stdout_Write os b w
    else atomicWriteFile os dest b ".new" w in
  match err with
  | Some e => (w, Fatal e)
  | None => (w, Ok tt)
  end.

(** The Output Document [main] computes from the instances the inventory
    returned. *)
Definition main_document (quote : string -> string)
    (order_tags : gmap string () -> list string)
    (order_groups : gmap string TargetGroup -> list string)
    (g : Globals) (instances : list ec2.Instance) : result string :=
  tagKeys ← main_tagKeys order_tags (tags g) instances;
  targetGroups ← groupByTags (port g) instances tagKeys;
  Ok (marshalTargetGroups quote order_groups targetGroups).

(** From the instances the inventory returned to the end of [main]. *)
Definition main_core (quote : string -> string) (os : OS)
    (order_tags : gmap string () -> list string)
    (order_groups : gmap string TargetGroup -> list string)
    (g : Globals) (instances : list ec2.Instance) (w : World)
  : World * result () :=
  match main_document quote order_tags order_groups g instances with
  | Panic => (w, Panic)
  | Fatal msg => (w, Fatal msg)
  | Ok b => main_publish os (dest g) b w
  end.

Definition main (quote : string -> string) (aws : AWS) (os : OS)
    (order_tags : gmap string () -> list string)
    (order_groups : gmap string TargetGroup -> list string)
    (parsed : Flags) (w : World) : World * result () :=
  match initFlags parsed with
  | Panic => (w, Panic)
  | Fatal msg => (w, Fatal msg)
  | Ok g =>
  match session_NewSession aws 0 with
  | Some err => (fmt_Println os ("failed to create session, " +:+ err) w, Ok tt)
  | None =>
  (* fetch the instances from the ELB *)
  let w := record (NetDescribeLoadBalancers (region g) [elbName g]) w in
  match elb_DescribeLoadBalancers aws (region g) [elbName g] with
  | inr err => (fmt_Println os err w, Ok tt)
  | inl descriptions =>
  match index descriptions 0 with
  | Panic => (w, Panic)
  | Fatal msg => (w, Fatal msg)
  | Ok description =>
  (* save the instances in to their own slice *)
  let unCheckedInstances :=
    foldl (fun acc instance => acc ++ [instance]) [] (elb.Instances description) in
  (* get the health of previously found instances. *)
  let w := record (NetDescribeInstanceHealth (region g) (elbName g)
                     unCheckedInstances) w in
  match elb_DescribeInstanceHealth aws (region g) (elbName g) unCheckedInstances with
  | inr err => (fmt_Println os err w, Ok tt)
  | inl respHealth =>
  (* filter elb instances down to only the healthy ones *)
  match filterHealthyInstances respHealth with
  | Panic => (w, Panic)
  | Fatal msg => (w, Fatal msg)
  | Ok healthyInstances =>
  (* get the IP addresses of the healthy instances *)
  match session_NewSession aws 1 with
  | Some err => (fmt_Println os "failed to create session, <nil>" w, Ok tt)
  | None =>
  let w := record (NetDescribeInstances "us-east-1" healthyInstances) w in
  match ec2_DescribeInstances aws "us-east-1" healthyInstances with
  | inr err => (record (LogPrintln err) w, Ok tt)
  | inl reservations =>
  (* flatten the instances array *)
  let instances := flattenReservations reservations in
  main_core quote os order_tags order_groups g instances w
  end end end end end end end end.

(** * Vocabulary of the properties *)

(** Strictly increasing byte-wise lexicographic order. *)
Definition String_lt (s1 s2 : string) : Prop := String.le s1 s2 /\ s1 <> s2.

(** The lifecycle state code of an instance, when the record has one. *)
Definition state_code (instance : ec2.Instance) : option Z :=
  ec2.State instance ≫= ec2.Code.

(** The target entry of an instance, when it has a private address. *)
Definition instance_target (port : Z) (instance : ec2.Instance) : option string :=
  target_of port <$> ec2.PrivateIpAddress instance.

(** [t] is the target entry of [instance]. *)
Definition is_target_of (port : Z) (t : string) (instance : ec2.Instance) : Prop :=
  instance_target port instance = Some t.

(** Every tag of the record has a key and a value. *)
Definition tags_present (instance : ec2.Instance) : Prop :=
  Forall (fun t => is_Some (ec2.Key t) /\ is_Some (ec2.Value t))
         (ec2.Tags instance).

(** The records the grouping engine is meant for: a state code on every
    instance and, on the running ones, a private address and whole tags. *)
Definition well_formed (instance : ec2.Instance) : Prop :=
  is_Some (state_code instance) /\
  (state_code instance = Some 16 ->
   is_Some (ec2.PrivateIpAddress instance) /\ tags_present instance).

(** The running instances among [instances] whose signature is [k], in the
    order of the input. *)
Definition group_members (tags : list string) (k : string)
    (instances : list ec2.Instance) : list ec2.Instance :=
  filter (fun i => state_code i = Some 16 /\ signature i tags = Ok k) instances.

(** The target of [instance] is an entry of the group that [m] stores under
    [k]. *)
Definition in_group (port : Z) (m : gmap string TargetGroup) (k : string)
    (instance : ec2.Instance) : Prop :=
  exists g t, m !! k = Some g /\ is_target_of port t instance /\ t ∈ Targets g.

(** The targets of [a] and [b] appear in one group of [m]. *)
Definition same_group (port : Z) (m : gmap string TargetGroup)
    (a b : ec2.Instance) : Prop :=
  exists k, in_group port m k a /\ in_group port m k b.

(** No two running instances with different signatures have the same
    private address. *)
Definition addresses_apart (tags : list string) (instances : list ec2.Instance)
  : Prop :=
  forall c d, c ∈ instances -> d ∈ instances ->
    state_code c = Some 16 -> state_code d = Some 16 ->
    ec2.PrivateIpAddress c = ec2.PrivateIpAddress d ->
    signature c tags = signature d tags.

(** The invariant of the loop over the instances: after the instances [l],
    the map has a group under [k] exactly when [l] has a running instance
    of signature [k]; its labels are those computed from the first such
    instance and its targets are, in order, the targets of all of them. *)
Definition group_inv (port : Z) (tags : list string)
    (l : list ec2.Instance) (m : gmap string TargetGroup) : Prop :=
  forall k,
    match m !! k with
    | None => group_members tags k l = []
    | Some g =>
        exists first rest,
          group_members tags k l = first :: rest /\
          new_labels first tags = Ok (Labels g) /\
          Forall2 (is_target_of port) (Targets g) (first :: rest)
    end.

(** The byte [c] occurs in [s]. *)
Fixpoint has_byte (c : ascii) (s : string) : bool :=
  match s with
  | "" => false
  | String c' s' => bool_decide (c' = c) || has_byte c s'
  end.

(** The record [instance] with other tags. *)
Definition with_Tags (instance : ec2.Instance) (ts : list ec2.Tag) : ec2.Instance :=
  {| ec2.InstanceId := ec2.InstanceId instance;
     ec2.PrivateIpAddress := ec2.PrivateIpAddress instance;
     ec2.State := ec2.State instance;
     ec2.Tags := ts |}.

(** Every tag key of every instance, in the order of the records. *)
Definition tag_keys (instances : list ec2.Instance) : list string :=
  instances ≫= fun i => omap ec2.Key (ec2.Tags i).

(** Every tag of every record has a key. *)
Definition keys_present (instances : list ec2.Instance) : Prop :=
  Forall (fun i => Forall (fun t => is_Some (ec2.Key t)) (ec2.Tags i)) instances.

(** The set of tag keys that [allTagKeys] builds before it ranges over it. *)
Definition tagSet_of (instances : list ec2.Instance) : result (gmap string ()) :=
  for_range allTagKeys_instance instances ∅.

(** The groups of a map with their signatures, by increasing signature. *)
Definition sorted_groups (m : gmap string TargetGroup) : list (string * TargetGroup) :=
  omap (fun k => pair k <$> m !! k) (sort_Strings (map_to_list m).*1).

(** What the program relies on from the operating system: [WriteFile] touches
    the named file only and leaves the data there when it succeeds; a
    [Rename] that fails changes nothing, and one that succeeds moves the
    content of the old path onto the new one. *)
Record OS_contract (os : OS) : Prop := {
  WriteFile_frame fs name data p :
    p <> name -> (os_WriteFile os fs name data).1 !! p = fs !! p;
  WriteFile_ok fs name data :
    (os_WriteFile os fs name data).2 = None ->
    (os_WriteFile os fs name data).1 !! name = Some data;
  Rename_err fs oldpath newpath :
    (os_Rename os fs oldpath newpath).2 <> None ->
    (os_Rename os fs oldpath newpath).1 = fs;
  Rename_ok fs oldpath newpath :
    (os_Rename os fs oldpath newpath).2 = None ->
    exists content,
      fs !! oldpath = Some content /\
      (os_Rename os fs oldpath newpath).1 = <[newpath := content]> (delete oldpath fs)
}.

(** The run of [main] from the world [w0] gets as far as the publisher: the
    flags parse to [g], both sessions are made, the three requests are
    answered, and the document of the instances the inventory returned is
    [b].  [w] is the world after the three requests. *)
Definition reaches_publisher (quote : string -> string) (aws : AWS)
    (order_tags : gmap string () -> list string)
    (order_groups : gmap string TargetGroup -> list string)
    (parsed : Flags) (w0 : World) (g : Globals) (b : string) (w : World) : Prop :=
  exists description descriptions respHealth healthyInstances reservations,
    initFlags parsed = Ok g /\
    session_NewSession aws 0 = None /\
    elb_DescribeLoadBalancers aws (region g) [elbName g]
    = inl (description :: descriptions) /\
    elb_DescribeInstanceHealth aws (region g) (elbName g)
      (elb.Instances description) = inl respHealth /\
    filterHealthyInstances respHealth = Ok healthyInstances /\
    session_NewSession aws 1 = None /\
    ec2_DescribeInstances aws "us-east-1" healthyInstances = inl reservations /\
    main_document quote order_tags order_groups g (flattenReservations reservations)
    = Ok b /\
    w = record (NetDescribeInstances "us-east-1" healthyInstances)
          (record (NetDescribeInstanceHealth (region g) (elbName g)
                     (elb.Instances description))
             (record (NetDescribeLoadBalancers (region g) [elbName g]) w0)).

(** The directory part of a path: what precedes its last slash, with the
    slash. *)
Fixpoint dir_of (path : string) : string :=
  match path with
  | "" => ""
  | String c rest => if has_byte "/" path then String c (dir_of rest) else ""
  end.

(** The number of occurrences of the byte [c] in [s]. *)
Fixpoint count_byte (c : ascii) (s : string) : nat :=
  match s with
  | "" => 0
  | String c' s' => (if decide (c' = c) then 1 else 0) + count_byte c s'
  end.

(** The selector that [parseTags] makes of a field with at most one [=]. *)
Definition selector_of (t : string) : Tag :=
  match strings_Split t "=" with
  | [_] => {| Key := t; FilterName := "tag-key"; FilterValue := t |}
  | [p0; p1] => {| Key := p0; FilterName := "tag:" +:+ p0; FilterValue := p1 |}
  | _ => zero_Tag
  end.

(** The number of target entries of all the groups of a map. *)
Definition total_targets (m : gmap string TargetGroup) : nat :=
  map_fold (fun _ g n => (length (Targets g) + n)%nat) 0%nat m.

(** A record on which an iteration of the grouping loop cannot succeed: no
    state, no state code, or running without a private address. *)
Definition unusable (instance : ec2.Instance) : Prop :=
  state_code instance = None \/
  (state_code instance = Some 16 /\ ec2.PrivateIpAddress instance = None).

(** The tag [t] has a key, which is not [key]. *)
Definition other_key (key : string) (t : ec2.Tag) : Prop :=
  exists k, ec2.Key t = Some k /\ k <> key.

(** The field a selector was parsed from. *)
Definition render_Tag (t : Tag) : string :=
  if decide (FilterName t = "tag-key") then Key t
  else Key t +:+ "=" +:+ FilterValue t.

(** The tag filter spec a selector sequence was parsed from. *)
Definition render_Tags (tags : Tags) : string :=
  String.concat "," (map render_Tag tags).

(** The calls that a run from the world [w] to the world [w'] has added. *)
Definition new_calls (w w' : World) : list event :=
  drop (length (calls w)) (calls w').

(** The call writes or renames a file. *)
Definition is_file_call (e : event) : Prop :=
  match e with
  | SysWriteFile _ _ | SysRename _ _ => True
  | _ => False
  end.

(** The ways in which [main] ends once it has asked for the health of the
    instances of [description], from the world [w2]. *)
Inductive main_ends_health (quote : string -> string) (aws : AWS) (os : OS)
    (order_tags : gmap string () -> list string)
    (order_groups : gmap string TargetGroup -> list string)
    (g : Globals) (description : elb.LoadBalancerDescription) (w2 : World)
  : World -> result () -> Prop :=
| ends_health_error err :
    elb_DescribeInstanceHealth aws (region g) (elbName g)
      (elb.Instances description) = inr err ->
    main_ends_health quote aws os order_tags order_groups g description w2
      (fmt_Println os err w2) (Ok tt)
| ends_health_panic respHealth :
    elb_DescribeInstanceHealth aws (region g) (elbName g)
      (elb.Instances description) = inl respHealth ->
    filterHealthyInstances respHealth = Panic ->
    main_ends_health quote aws os order_tags order_groups g description w2 w2 Panic
| ends_session_again respHealth healthyInstances err :
    elb_DescribeInstanceHealth aws (region g) (elbName g)
      (elb.Instances description) = inl respHealth ->
    filterHealthyInstances respHealth = Ok healthyInstances ->
    session_NewSession aws 1 = Some err ->
    main_ends_health quote aws os order_tags order_groups g description w2
      (fmt_Println os "failed to create session, <nil>" w2) (Ok tt)
| ends_inventory_error respHealth healthyInstances err :
    elb_DescribeInstanceHealth aws (region g) (elbName g)
      (elb.Instances description) = inl respHealth ->
    filterHealthyInstances respHealth = Ok healthyInstances ->
    session_NewSession aws 1 = None ->
    ec2_DescribeInstances aws "us-east-1" healthyInstances = inr err ->
    let w3 := record (NetDescribeInstances "us-east-1" healthyInstances) w2 in
    main_ends_health quote aws os order_tags order_groups g description w2
      (record (LogPrintln err) w3) (Ok tt)
| ends_core respHealth healthyInstances reservations :
    elb_DescribeInstanceHealth aws (region g) (elbName g)
      (elb.Instances description) = inl respHealth ->
    filterHealthyInstances respHealth = Ok healthyInstances ->
    session_NewSession aws 1 = None ->
    ec2_DescribeInstances aws "us-east-1" healthyInstances = inl reservations ->
    let w3 := record (NetDescribeInstances "us-east-1" healthyInstances) w2 in
    let run := main_core quote os order_tags order_groups g
                 (flattenReservations reservations) w3 in
    main_ends_health quote aws os order_tags order_groups g description w2
      run.1 run.2.

(** The ways in which [main] ends, one for each [return], [log.Fatal] and
    panic of its body, with the world it leaves and its outcome.  [w1], [w2]
    and [w3] are the worlds after the first, second and third request. *)
Inductive main_ends (quote : string -> string) (aws : AWS) (os : OS)
    (order_tags : gmap string () -> list string)
    (order_groups : gmap string TargetGroup -> list string)
    (parsed : Flags) (w : World) : World -> result () -> Prop :=
| ends_flags_fatal msg :
    initFlags parsed = Fatal msg ->
    main_ends quote aws os order_tags order_groups parsed w w (Fatal msg)
| ends_session g err :
    initFlags parsed = Ok g ->
    session_NewSession aws 0 = Some err ->
    main_ends quote aws os order_tags order_groups parsed w
      (fmt_Println os ("failed to create session, " +:+ err) w) (Ok tt)
| ends_balancers_error g err :
    initFlags parsed = Ok g ->
    session_NewSession aws 0 = None ->
    elb_DescribeLoadBalancers aws (region g) [elbName g] = inr err ->
    let w1 := record (NetDescribeLoadBalancers (region g) [elbName g]) w in
    main_ends quote aws os order_tags order_groups parsed w
      (fmt_Println os err w1) (Ok tt)
| ends_no_description g :
    initFlags parsed = Ok g ->
    session_NewSession aws 0 = None ->
    elb_DescribeLoadBalancers aws (region g) [elbName g] = inl [] ->
    let w1 := record (NetDescribeLoadBalancers (region g) [elbName g]) w in
    main_ends quote aws os order_tags order_groups parsed w w1 Panic
| ends_health g description descriptions r w' :
    initFlags parsed = Ok g ->
    session_NewSession aws 0 = None ->
    elb_DescribeLoadBalancers aws (region g) [elbName g]
    = inl (description :: descriptions) ->
    let w1 := record (NetDescribeLoadBalancers (region g) [elbName g]) w in
    let w2 := record (NetDescribeInstanceHealth (region g) (elbName g)
                        (elb.Instances description)) w1 in
    main_ends_health quote aws os order_tags order_groups g description w2 w' r ->
    main_ends quote aws os order_tags order_groups parsed w w' r.

(** The call is a request to one of the two AWS services. *)
Definition is_net_call (e : event) : Prop :=
  match e with
  | NetDescribeLoadBalancers _ _ | NetDescribeInstanceHealth _ _ _
  | NetDescribeInstances _ _ => True
  | _ => False
  end.

(** The flags with another tag filter spec. *)
Definition with_tags (parsed : Flags) (tagsRaw : string) : Flags :=
  {| flag_port := flag_port parsed; flag_dest := flag_dest parsed;
     flag_region := flag_region parsed; flag_elb := flag_elb parsed;
     flag_tags := tagsRaw |}.

(** * Sample inputs *)

(** Health states that differ from [InService] in case or by a trailing
    space, among two that are in service. *)
Definition sample_health : elb.DescribeInstanceHealthOutput :=
  {| elb.InstanceStates :=
       [ {| elb.InstanceId' := Some "i-1"; elb.State := Some "InService" |};
         {| elb.InstanceId' := Some "i-2"; elb.State := Some "OutOfService" |};
         {| elb.InstanceId' := Some "i-3"; elb.State := Some "inservice" |};
         {| elb.InstanceId' := Some "i-4"; elb.State := Some "InService " |};
         {| elb.InstanceId' := Some "i-5"; elb.State := Some "InService" |} ] |}.

(** An instance record with an identifier, a state code and whole tags. *)
Definition mk_instance (id : string) (ip : option string) (code : Z)
    (tags : list (string * string)) : ec2.Instance :=
  {| ec2.InstanceId := Some id;
     ec2.PrivateIpAddress := ip;
     ec2.State := Some {| ec2.Code := Some code |};
     ec2.Tags := map (fun kv => {| ec2.Key := Some (fst kv);
                                   ec2.Value := Some (snd kv) |}) tags |}.

(** Running instances among a stopped one without address (code 80) and a
    terminated one (code 48). *)
Definition sample_fleet : list ec2.Instance :=
  [ mk_instance "i-a" (Some "10.0.0.1") 16 [("Name", "web")];
    mk_instance "i-b" None 80 [("Name", "web")];
    mk_instance "i-c" (Some "10.0.0.3") 48 [("Name", "db")];
    mk_instance "i-d" (Some "10.0.0.4") 16 [("Name", "db")];
    mk_instance "i-e" (Some "10.0.0.5") 16 [("Name", "web")] ].

(** A running instance without a private address. *)
Definition no_address : ec2.Instance :=
  mk_instance "i-0" None 16 [("Name", "web")].

(** Two running instances with different tag values and one signature
    under the selectors [a], [b]. *)
Definition bar_first : ec2.Instance :=
  mk_instance "i-1" (Some "10.0.0.1") 16 [("a", "x|b=y")].
Definition bar_second : ec2.Instance :=
  mk_instance "i-2" (Some "10.0.0.2") 16 [("a", "x"); ("b", "y|b=")].

(** The instances of the fallback-ordering example. *)
Definition team_region : list ec2.Instance :=
  [ mk_instance "i-1" (Some "10.0.0.1") 16 [("Team", "x")];
    mk_instance "i-2" (Some "10.0.0.2") 16 [("Region", "y")] ].

(** The groups of the output-ordering example and the document they
    serialize to. *)
Definition web_db : gmap string TargetGroup :=
  {[ "|Name=web" := {| Targets := ["10.0.0.1:80"; "10.0.0.5:80"];
                       Labels := {[ "Name" := "web" ]} |};
     "|Name=db" := {| Targets := ["10.0.0.4:80"];
                      Labels := {[ "Name" := "db" ]} |} ]}.

Definition web_db_document : string :=
  String.concat json.newline
    [ "[";
      "  {";
      "    " +:+ json.quote_plain "targets" +:+ ": [";
      "      " +:+ json.quote_plain "10.0.0.4:80";
      "    ],";
      "    " +:+ json.quote_plain "labels" +:+ ": {";
      "      " +:+ json.quote_plain "Name" +:+ ": " +:+ json.quote_plain "db";
      "    }";
      "  },";
      "  {";
      "    " +:+ json.quote_plain "targets" +:+ ": [";
      "      " +:+ json.quote_plain "10.0.0.1:80" +:+ ",";
      "      " +:+ json.quote_plain "10.0.0.5:80";
      "    ],";
      "    " +:+ json.quote_plain "labels" +:+ ": {";
      "      " +:+ json.quote_plain "Name" +:+ ": " +:+ json.quote_plain "web";
      "    }";
      "  }";
      "]" ].

(** An operating system to run the publisher with: a write that fails leaves
    an empty temporary file, a rename that fails leaves everything. *)
Definition sim_OS (write_fails rename_fails : bool) : OS :=
  {| os_WriteFile fs name data :=
       if write_fails then (<[name := ""]> fs, Some "no space left on device")
       else (<[name := data]> fs, None);
     os_Rename fs oldpath newpath :=
       if rename_fails then (fs, Some "permission denied")
       else match fs !! oldpath with
            | Some content => (<[newpath := content]> (delete oldpath fs), None)
            | None => (fs, Some "no such file or directory")
            end;
     os_StdoutWrite out b := (out +:+ b, None) |}.

(** A machine on which the destination file already exists. *)
Definition sample_world : World :=
  {| files := {[ "tgroups/target_groups.json" := "[]" ]}; stdout := ""; calls := [] |}.

(** The scenario of the specification: [A] and [B] are in service, [C] is
    not; the inventory answers with the records of the identifiers asked
    for. *)
Definition scenario_inventory : list ec2.Instance :=
  [ mk_instance "i-A" (Some "10.0.0.1") 16 [("Environment", "prod")];
    mk_instance "i-B" (Some "10.0.0.2") 16 [("Environment", "stage")];
    mk_instance "i-C" (Some "10.0.0.3") 16 [("Environment", "prod")] ].

Definition scenario_aws : AWS :=
  {| session_NewSession _ := None;
     elb_DescribeLoadBalancers _ _ :=
       inl [ {| elb.Instances := [ {| elb.InstanceId := Some "i-A" |};
                                   {| elb.InstanceId := Some "i-B" |};
                                   {| elb.InstanceId := Some "i-C" |} ] |} ];
     elb_DescribeInstanceHealth _ _ _ :=
       inl {| elb.InstanceStates :=
                [ {| elb.InstanceId' := Some "i-A"; elb.State := Some "InService" |};
                  {| elb.InstanceId' := Some "i-B"; elb.State := Some "InService" |};
                  {| elb.InstanceId' := Some "i-C"; elb.State := Some "OutOfService" |} ] |};
     ec2_DescribeInstances _ ids :=
       inl [ {| ec2.Instances :=
                  filter (fun i => ec2.InstanceId i ∈ ids) scenario_inventory |} ] |}.

Definition scenario_flags : Flags :=
  {| flag_port := 80; flag_dest := "-"; flag_region := "us-west-2";
     flag_elb := "front"; flag_tags := "Environment" |}.

Definition scenario_document : string :=
  String.concat json.newline
    [ "[";
      "  {";
      "    " +:+ json.quote_plain "targets" +:+ ": [";
      "      " +:+ json.quote_plain "10.0.0.1:80";
      "    ],";
      "    " +:+ json.quote_plain "labels" +:+ ": {";
      "      " +:+ json.quote_plain "Environment" +:+ ": " +:+ json.quote_plain "prod";
      "    }";
      "  },";
      "  {";
      "    " +:+ json.quote_plain "targets" +:+ ": [";
      "      " +:+ json.quote_plain "10.0.0.2:80";
      "    ],";
      "    " +:+ json.quote_plain "labels" +:+ ": {";
      "      " +:+ json.quote_plain "Environment" +:+ ": " +:+ json.quote_plain "stage";
      "    }";
      "  }";
      "]" ].

(** Instances whose tags repeat a key, lack one, and hold a nil key after
    the first match. *)
Definition twice_tagged : ec2.Instance :=
  {| ec2.InstanceId := Some "i-t";
     ec2.PrivateIpAddress := Some "10.0.0.9";
     ec2.State := Some {| ec2.Code := Some 16 |};
     ec2.Tags := [ {| ec2.Key := Some "Role"; ec2.Value := Some "api" |};
                   {| ec2.Key := Some "Name"; ec2.Value := Some "first" |};
                   {| ec2.Key := Some "Name"; ec2.Value := Some "second" |};
                   {| ec2.Key := None; ec2.Value := None |} ] |}.

(** A record without a state code. *)
Definition no_state : ec2.Instance :=
  {| ec2.InstanceId := Some "i-n";
     ec2.PrivateIpAddress := Some "10.0.0.8";
     ec2.State := Some {| ec2.Code := None |};
     ec2.Tags := [] |}.

(** The groups of [sample_fleet] taken in reverse order. *)
Definition web_db_reversed : gmap string TargetGroup :=
  {[ "|Name=web" := {| Targets := ["10.0.0.5:80"; "10.0.0.1:80"];
                       Labels := {[ "Name" := "web" ]} |};
     "|Name=db" := {| Targets := ["10.0.0.4:80"];
                      Labels := {[ "Name" := "db" ]} |} ]}.


(** The flags of the scenario with a file for destination. *)
Definition file_flags : Flags :=
  {| flag_port := 80; flag_dest := "tgroups/target_groups.json";
     flag_region := "us-west-2"; flag_elb := "front"; flag_tags := "Environment" |}.

(** The package-level variables of the scenario with a file for
    destination, and the world after its three requests. *)
Definition scenario_globals : Globals :=
  {| dest := "tgroups/target_groups.json"; port := 80; region := "us-west-2";
     elbName := "front";
     tags := [ {| Key := "Environment"; FilterName := "tag-key";
                  FilterValue := "Environment" |} ] |}.

Definition scenario_requested : World :=
  {| files := files sample_world; stdout := "";
     calls := [ NetDescribeLoadBalancers "us-west-2" ["front"];
                NetDescribeInstanceHealth "us-west-2" "front"
                  [ {| elb.InstanceId := Some "i-A" |};
                    {| elb.InstanceId := Some "i-B" |};
                    {| elb.InstanceId := Some "i-C" |} ];
                NetDescribeInstances "us-east-1" [Some "i-A"; Some "i-B"] ] |}.

(** * Properties *)

(** ** Loops and sorting *)

Section Loops.
Context {A St : Type}.
Implicit Types (body : St -> A -> result St) (l : list A) (s : St).

Lemma for_range_app body l1 l2 s :
  for_range body (l1 ++ l2) s = s' ← for_range body l1 s; for_range body l2 s'.
Proof.
  revert s. induction l1 as [|x l1 IH]; intros s; simpl; [done|].
  destruct (body s x); simpl; auto.
Qed.

(** Appending the visited elements one by one copies the sequence. *)
Lemma foldl_snoc_copy (l acc : list A) :
  foldl (fun acc x => acc ++ [x]) acc l = acc ++ l.
Proof.
  revert acc. induction l as [|x l IH]; intros acc; simpl.
  - by rewrite app_nil_r.
  - by rewrite IH, <-app_assoc.
Qed.

Lemma foldl_snoc_map {B} (f : A -> B) (l : list A) (acc : list B) :
  foldl (fun acc x => acc ++ [f x]) acc l = acc ++ map f l.
Proof.
  revert acc. induction l as [|x l IH]; intros acc; simpl.
  - by rewrite app_nil_r.
  - by rewrite IH, <-app_assoc.
Qed.
End Loops.

Lemma bind_Ok_inv {A B} (f : A -> result B) (r : result A) (b : B) :
  r ≫= f = Ok b -> exists a, r = Ok a /\ f a = Ok b.
Proof. destruct r as [a| |]; simpl; [eauto|done..]. Qed.

Lemma sort_Strings_Permutation keys : sort_Strings keys ≡ₚ keys.
Proof. apply merge_sort_Permutation. Qed.

Lemma sort_Strings_Sorted keys : StronglySorted String.le (sort_Strings keys).
Proof. apply (StronglySorted_merge_sort _). Qed.

(** The sorted order of a collection of strings does not depend on the order
    it is given in. *)
Lemma sort_Strings_unique keys1 keys2 :
  keys1 ≡ₚ keys2 -> sort_Strings keys1 = sort_Strings keys2.
Proof.
  intros Hperm. apply (StronglySorted_unique String.le).
  - apply sort_Strings_Sorted.
  - apply sort_Strings_Sorted.
  - by rewrite !sort_Strings_Permutation.
Qed.

(** Without duplicates the sorted order is strict. *)
Lemma sort_Strings_strict keys :
  NoDup keys -> StronglySorted String_lt (sort_Strings keys).
Proof.
  intros Hnd.
  assert (NoDup (sort_Strings keys)) as Hnd'
    by by rewrite sort_Strings_Permutation.
  pose proof (sort_Strings_Sorted keys) as Hs.
  induction Hs as [|x l Hs IH Hx]; [constructor|].
  apply NoDup_cons in Hnd' as [Hx' Hnd'].
  constructor; [by apply IH|].
  apply Forall_forall. intros y Hy. split.
  - by eapply Forall_forall in Hx.
  - intros ->. done.
Qed.

Lemma ascending_range_order {V} : range_order (@ascending_range V).
Proof. intros m. apply merge_sort_Permutation. Qed.

Lemma descending_range_order {V} : range_order (@descending_range V).
Proof.
  intros m. unfold descending_range.
  by rewrite reverse_Permutation, ascending_range_order.
Qed.

(** ** Health filter *)

Lemma filterHealthyInstances_loop states healthy :
  Forall (fun s => is_Some (elb.State s)) states ->
  for_range filterHealthyInstances_body states healthy =
  Ok (healthy ++
      map elb.InstanceId'
        (filter (fun s => elb.State s = Some "InService") states)).
Proof.
  intros Hwf. revert healthy.
  induction Hwf as [|s states [st Hst] _ IH]; intros healthy; simpl.
  - by rewrite app_nil_r.
  - assert (filterHealthyInstances_body healthy s =
            if decide (st = "InService")
            then Ok (healthy ++ [elb.InstanceId' s]) else Ok healthy) as ->
      by (unfold filterHealthyInstances_body; by rewrite Hst).
    rewrite filter_cons, Hst.
    destruct (decide (st = "InService")) as [->|Hne]; simpl.
    + rewrite IH. by rewrite <-app_assoc.
    + rewrite decide_False by congruence. apply IH.
Qed.

(** C4.  For candidate instance states that each carry a health status, the
    health filter returns the identifiers of exactly those whose status is
    the string [InService], compared byte for byte, in the order of the
    input; nothing else excludes a candidate. *)
Theorem filterHealthyInstances_spec (output : elb.DescribeInstanceHealthOutput) :
  Forall (fun s => is_Some (elb.State s)) (elb.InstanceStates output) ->
  filterHealthyInstances output =
  Ok (map elb.InstanceId'
        (filter (fun s => elb.State s = Some "InService")
                (elb.InstanceStates output))).
Proof. intros Hwf. unfold filterHealthyInstances. by rewrite filterHealthyInstances_loop. Qed.

Lemma filterHealthyInstances_spec_witness :
  Forall (fun s => is_Some (elb.State s)) (elb.InstanceStates sample_health) /\
  filterHealthyInstances sample_health = Ok [Some "i-1"; Some "i-5"].
Proof.
  assert (Forall (fun s => is_Some (elb.State s))
            (elb.InstanceStates sample_health)) as Hwf
    by (repeat constructor; simpl; eauto).
  split; [exact Hwf|].
  exact (filterHealthyInstances_spec sample_health Hwf).
Defined.

(** ** Grouping engine *)

Section Grouping.
Variable port : Z.
Variable tags : list string.
Implicit Types (m : gmap string TargetGroup) (instance : ec2.Instance).

Lemma body_not_running m instance c :
  state_code instance = Some c -> c <> 16 ->
  groupByTags_body port tags m instance = Ok m.
Proof.
  unfold state_code, groupByTags_body. intros Hc Hne.
  destruct (ec2.State instance) as [st|]; [|done]. simpl in *.
  rewrite Hc. simpl. by rewrite decide_True.
Qed.

(** What an iteration does for a running instance. *)
Lemma body_running m instance :
  state_code instance = Some 16 ->
  groupByTags_body port tags m instance =
  key ← signature instance tags;
  labels ← match m !! key with
           | Some g => Ok (Labels g)
           | None => new_labels instance tags
           end;
  ip ← deref (ec2.PrivateIpAddress instance);
  Ok (<[key := {| Targets := default [] (Targets <$> m !! key)
                             ++ [target_of port ip];
                  Labels := labels |}]> m).
Proof.
  unfold state_code, groupByTags_body. intros Hc.
  destruct (ec2.State instance) as [st|]; [|done]. simpl in *.
  rewrite Hc. simpl.
  destruct (signature instance tags) as [key| |]; simpl; [|done..].
  destruct (m !! key) as [g|] eqn:Hg; simpl.
  - by destruct (ec2.PrivateIpAddress instance).
  - destruct (new_labels instance tags) as [labels| |]; simpl; [|done..].
    destruct (ec2.PrivateIpAddress instance); simpl; [|done].
    by rewrite insert_insert_eq.
Qed.

Lemma body_Ok_inv m m' instance :
  groupByTags_body port tags m instance = Ok m' ->
  (exists c, state_code instance = Some c /\ c <> 16 /\ m' = m) \/
  (exists key labels ip,
      state_code instance = Some 16 /\
      signature instance tags = Ok key /\
      match m !! key with
      | Some g => labels = Labels g
      | None => new_labels instance tags = Ok labels
      end /\
      ec2.PrivateIpAddress instance = Some ip /\
      m' = <[key := {| Targets := default [] (Targets <$> m !! key)
                                  ++ [target_of port ip];
                       Labels := labels |}]> m).
Proof.
  intros Hbody.
  destruct (state_code instance) as [c|] eqn:Hc.
  - destruct (decide (c = 16)) as [->|Hne].
    + right. rewrite body_running in Hbody by done.
      apply bind_Ok_inv in Hbody as (key & Hkey & Hbody).
      apply bind_Ok_inv in Hbody as (labels & Hlabels & Hbody).
      apply bind_Ok_inv in Hbody as (ip & Hip & Hbody).
      exists key, labels, ip. split_and!; try done.
      * destruct (m !! key); simplify_eq/=; done.
      * by destruct (ec2.PrivateIpAddress instance); simplify_eq/=.
      * congruence.
    + left. exists c. erewrite body_not_running in Hbody by done.
      split_and!; congruence.
  - exfalso. unfold state_code, groupByTags_body in *.
    destruct (ec2.State instance) as [st|]; simpl in *; [|done].
    by rewrite Hc in Hbody.
Qed.

Lemma group_members_snoc k l instance :
  group_members tags k (l ++ [instance]) =
  group_members tags k l ++
  (if decide (state_code instance = Some 16 /\ signature instance tags = Ok k)
   then [instance] else []).
Proof.
  unfold group_members. by rewrite filter_app.
Qed.

Lemma group_inv_empty : group_inv port tags [] ∅.
Proof. intros k. by rewrite lookup_empty. Qed.

Lemma group_inv_step l m m' instance :
  groupByTags_body port tags m instance = Ok m' ->
  group_inv port tags l m -> group_inv port tags (l ++ [instance]) m'.
Proof.
  intros Hbody Hinv k. specialize (Hinv k). rewrite group_members_snoc.
  apply body_Ok_inv in Hbody
    as [(c & Hc & Hne & ->)|(key & labels & ip & Hrun & Hkey & Hl & Hip & ->)].
  { rewrite decide_False by (intros [? _]; congruence).
    by rewrite app_nil_r. }
  assert (is_target_of port (target_of port ip) instance) as Htgt
    by (unfold is_target_of, instance_target; by rewrite Hip).
  destruct (decide (k = key)) as [->|Hne].
  - rewrite lookup_insert_eq, decide_True by done. simpl.
    destruct (m !! key) as [g|]; simpl.
    + destruct Hinv as (first & rest & -> & Hlabels & Htargets). subst labels.
      exists first, (rest ++ [instance]). split_and!; [done..|].
      rewrite app_comm_cons. apply Forall2_app; [done|]. by constructor.
    + rewrite Hinv. exists instance, []. split_and!; [done..|].
      by constructor.
  - rewrite lookup_insert_ne by done.
    rewrite decide_False by (intros [_ ?]; congruence).
    by rewrite app_nil_r.
Qed.

Lemma group_inv_loop l2 : forall l1 m m',
  for_range (groupByTags_body port tags) l2 m = Ok m' ->
  group_inv port tags l1 m -> group_inv port tags (l1 ++ l2) m'.
Proof.
  induction l2 as [|instance l2 IH]; intros l1 m m' Hloop Hinv; simpl in *.
  - rewrite app_nil_r. by simplify_eq.
  - apply bind_Ok_inv in Hloop as (m1 & Hbody & Hloop).
    rewrite (cons_middle instance l1 l2), (assoc_L (++)).
    eapply IH; [done|]. by eapply group_inv_step.
Qed.

(** The result of the grouping engine, group by group. *)
Lemma groupByTags_groups instances m :
  groupByTags port instances tags = Ok m -> group_inv port tags instances m.
Proof.
  intros Hrun. apply (group_inv_loop instances [] ∅ m Hrun group_inv_empty).
Qed.

(** Instances that are not running do not take part in the run. *)
Lemma groupByTags_running_only instances :
  Forall (fun i => is_Some (state_code i)) instances ->
  groupByTags port instances tags =
  groupByTags port (filter (fun i => state_code i = Some 16) instances) tags.
Proof.
  unfold groupByTags. intros Hwf. generalize (∅ : gmap string TargetGroup).
  induction Hwf as [|instance l [c Hc] _ IH]; intros m; [done|].
  rewrite filter_cons. destruct (decide (c = 16)) as [->|Hne].
  - rewrite decide_True by done. simpl.
    destruct (groupByTags_body port tags m instance); simpl; auto.
  - rewrite decide_False by congruence. simpl.
    rewrite (body_not_running m instance c) by done. simpl. apply IH.
Qed.

(** *** No error on well-formed records *)

Lemma getTag_present instance key :
  tags_present instance -> exists v, getTag instance key = Ok v.
Proof.
  unfold tags_present, getTag.
  induction 1 as [|t ts [[k Hk] [v Hv]] _ IH]; simpl; [by eexists|].
  rewrite Hk. simpl. case_decide; [|done]. rewrite Hv. by eexists.
Qed.

Lemma signature_present instance :
  tags_present instance -> exists k, signature instance tags = Ok k.
Proof.
  intros Hwf. unfold signature. generalize "".
  induction tags as [|tagKey tagKeys IH]; intros key; simpl; [by eexists|].
  unfold signature_body.
  destruct (getTag_present instance tagKey Hwf) as [v ->]. simpl. apply IH.
Qed.

Lemma new_labels_present instance :
  tags_present instance -> exists labels, new_labels instance tags = Ok labels.
Proof.
  intros Hwf. unfold new_labels. generalize (∅ : gmap string string).
  induction tags as [|tagKey tagKeys IH]; intros labels; simpl; [by eexists|].
  unfold labels_body.
  destruct (getTag_present instance tagKey Hwf) as [v ->]. simpl.
  case_decide; simpl; apply IH.
Qed.

Lemma body_well_formed m instance :
  well_formed instance -> exists m', groupByTags_body port tags m instance = Ok m'.
Proof.
  intros [[c Hc] Hrun]. destruct (decide (c = 16)) as [->|Hne].
  - destruct (Hrun Hc) as [[ip Hip] Htags].
    rewrite body_running by done.
    destruct (signature_present instance Htags) as [key ->]. simpl.
    destruct (new_labels_present instance Htags) as [labels Hlabels].
    rewrite Hip. destruct (m !! key); simpl; [by eexists|].
    rewrite Hlabels. by eexists.
  - exists m. by eapply body_not_running.
Qed.

Lemma groupByTags_well_formed instances :
  Forall well_formed instances ->
  exists m, groupByTags port instances tags = Ok m.
Proof.
  unfold groupByTags. intros Hwf. generalize (∅ : gmap string TargetGroup).
  induction Hwf as [|instance l Hi _ IH]; intros m; simpl; [by eexists|].
  destruct (body_well_formed m instance Hi) as [m' ->]. simpl. apply IH.
Qed.

Lemma well_formed_state_code instance :
  well_formed instance -> is_Some (state_code instance).
Proof. by intros [? _]. Qed.

(** *** Where the targets of a run are *)

Lemma for_range_split_Ok (pre post : list ec2.Instance) instance m0 m :
  for_range (groupByTags_body port tags) (pre ++ instance :: post) m0 = Ok m ->
  exists m1 m2,
    for_range (groupByTags_body port tags) pre m0 = Ok m1 /\
    groupByTags_body port tags m1 instance = Ok m2 /\
    for_range (groupByTags_body port tags) post m2 = Ok m.
Proof.
  rewrite for_range_app. intros Hrun.
  apply bind_Ok_inv in Hrun as (m1 & Hpre & Hrun). simpl in Hrun.
  apply bind_Ok_inv in Hrun as (m2 & Hbody & Hpost). eauto.
Qed.

(** A running instance of the input has its target in the group of its
    signature. *)
Lemma groupByTags_member instances m instance k :
  groupByTags port instances tags = Ok m ->
  instance ∈ instances -> state_code instance = Some 16 ->
  signature instance tags = Ok k ->
  exists g t, m !! k = Some g /\ is_target_of port t instance /\ t ∈ Targets g.
Proof.
  intros Hrun Hin Hcode Hsig.
  pose proof (groupByTags_groups instances m Hrun k) as Hinv.
  assert (instance ∈ group_members tags k instances) as Hmem
    by (apply list_elem_of_filter; auto).
  destruct (m !! k) as [g|]; [|rewrite Hinv in Hmem; by apply elem_of_nil in Hmem].
  destruct Hinv as (first & rest & Heq & _ & Htargets). rewrite <-Heq in Htargets.
  apply list_elem_of_lookup in Hmem as [i Hi].
  destruct (Forall2_lookup_r _ _ _ _ _ Htargets Hi) as (t & Ht & Htgt).
  exists g, t. split_and!; [done..|]. by eapply list_elem_of_lookup_2.
Qed.
End Grouping.


Lemma groupByTags_running port tags instances m instance :
  groupByTags port instances tags = Ok m ->
  instance ∈ instances -> state_code instance = Some 16 ->
  exists k ip, signature instance tags = Ok k /\
               ec2.PrivateIpAddress instance = Some ip.
Proof.
  intros Hrun Hin Hcode.
  apply list_elem_of_split in Hin as (pre & post & ->).
  destruct (for_range_split_Ok port tags pre post instance ∅ m Hrun)
    as (m1 & m2 & _ & Hbody & _).
  apply body_Ok_inv in Hbody as [(c & Hc & Hne & _)|Hbody]; [congruence|].
  destruct Hbody as (key & labels & ip & _ & Hkey & _ & Hip & _). eauto.
Qed.

(** An entry of a group is the target of a running instance of the group's
    signature. *)
Lemma groupByTags_entry port tags instances m k g t :
  groupByTags port instances tags = Ok m ->
  m !! k = Some g -> t ∈ Targets g ->
  exists c, c ∈ instances /\ state_code c = Some 16 /\
            signature c tags = Ok k /\ is_target_of port t c.
Proof.
  intros Hrun Hg Ht.
  pose proof (groupByTags_groups port tags instances m Hrun k) as Hinv.
  rewrite Hg in Hinv. destruct Hinv as (first & rest & Hmem & _ & Htargets).
  rewrite <-Hmem in Htargets.
  apply list_elem_of_lookup in Ht as [i Hi].
  destruct (Forall2_lookup_l _ _ _ _ _ Htargets Hi) as (c & Hc & Htgt).
  apply list_elem_of_lookup_2 in Hc.
  apply list_elem_of_filter in Hc as [[Hcode Hsig] Hin]. eauto.
Qed.

Lemma groupByTags_in_group port tags instances m instance k :
  groupByTags port instances tags = Ok m ->
  instance ∈ instances -> state_code instance = Some 16 ->
  signature instance tags = Ok k -> in_group port m k instance.
Proof.
  intros Hrun Hin Hcode Hsig.
  destruct (groupByTags_member port tags instances m instance k Hrun Hin Hcode Hsig)
    as (g & t & Hg & Htgt & Ht).
  by exists g, t.
Qed.

(** *** Exclusion of instances that are not running *)

Lemma mk_instance_well_formed id ip code tags :
  (code = 16 -> is_Some ip) -> well_formed (mk_instance id ip code tags).
Proof.
  intros Hip. split; [by eexists|]. intros Hcode. split.
  - apply Hip. unfold state_code in Hcode. simpl in Hcode. congruence.
  - unfold tags_present. simpl. apply Forall_forall.
    intros t [kv [-> _]]%list_elem_of_fmap. simpl. split; by eexists.
Qed.

(** C1, as amended.  On records that have a state code and, when running, a
    private address and whole tags, the grouping engine raises no error: it
    returns a map.  The instances that are not running are excluded
    silently, with or without a private address: the map is the one the
    running instances alone produce, and the targets of each group are
    those of running instances. *)
Theorem groupByTags_completes (port : Z) (tags : list string)
    (instances : list ec2.Instance) :
  Forall well_formed instances ->
  exists m,
    groupByTags port instances tags = Ok m /\
    groupByTags port (filter (fun i => state_code i = Some 16) instances) tags
    = Ok m /\
    forall k g, m !! k = Some g ->
      Forall2 (is_target_of port) (Targets g) (group_members tags k instances).
Proof.
  intros Hwf. destruct (groupByTags_well_formed port tags instances Hwf) as [m Hm].
  exists m. split_and!; [done| |].
  - rewrite <-groupByTags_running_only; [done|].
    eapply Forall_impl; [done|]. apply well_formed_state_code.
  - intros k g Hg. pose proof (groupByTags_groups port tags instances m Hm k) as Hinv.
    rewrite Hg in Hinv. destruct Hinv as (first & rest & -> & _ & Htargets). done.
Qed.

Lemma groupByTags_completes_witness :
  Forall well_formed sample_fleet /\
  exists m,
    groupByTags 80 sample_fleet ["Name"] = Ok m /\
    groupByTags 80 (filter (fun i => state_code i = Some 16) sample_fleet) ["Name"]
    = Ok m /\
    forall k g, m !! k = Some g ->
      Forall2 (is_target_of 80) (Targets g) (group_members ["Name"] k sample_fleet).
Proof.
  assert (Forall well_formed sample_fleet) as Hwf.
  { unfold sample_fleet.
    repeat (apply Forall_cons_2;
            [apply mk_instance_well_formed; intros ?; first [lia|by eexists]|]).
    apply Forall_nil_2. }
  split; [exact Hwf|]. exact (groupByTags_completes 80 ["Name"] sample_fleet Hwf).
Defined.

(** A running instance that lacks a private address is not excluded: the
    engine dereferences the address and the run ends in a panic.  Nor is
    one whose address is the empty string: it gets a target entry. *)
Lemma groupByTags_no_address_panics :
  state_code no_address = Some 16 /\
  ec2.PrivateIpAddress no_address = None /\
  groupByTags 80 [no_address] ["Name"] = Panic /\
  groupByTags 80 [mk_instance "i-0" (Some "") 16 [("Name", "web")]] ["Name"]
  = Ok {[ "|Name=web" := {| Targets := [":80"];
                            Labels := {[ "Name" := "web" ]} |} ]}.
Proof. split_and!; vm_compute; reflexivity. Qed.

(** C3.  An instance whose state code is not 16 leaves no trace in the
    result: the run gives what it gives without the instance, and the
    targets of every group are those of the other instances.  The Health Set
    is no input of the grouping engine, so this holds whether or not the
    identifier of the instance is in it. *)
Theorem groupByTags_excludes_not_running (port : Z) (tags : list string)
    (pre post : list ec2.Instance) (instance : ec2.Instance) (c : Z) :
  state_code instance = Some c -> c <> 16 ->
  groupByTags port (pre ++ instance :: post) tags
  = groupByTags port (pre ++ post) tags /\
  forall m k g,
    groupByTags port (pre ++ instance :: post) tags = Ok m ->
    m !! k = Some g ->
    Forall2 (is_target_of port) (Targets g) (group_members tags k (pre ++ post)).
Proof.
  intros Hc Hne.
  assert (groupByTags port (pre ++ instance :: post) tags
          = groupByTags port (pre ++ post) tags) as Heq.
  { unfold groupByTags. rewrite !for_range_app.
    destruct (for_range _ pre ∅) as [m| |]; simpl; [|done..].
    by rewrite (body_not_running port tags m instance c). }
  split; [done|]. intros m k g Hm Hg. rewrite Heq in Hm.
  pose proof (groupByTags_groups port tags _ m Hm k) as Hinv.
  rewrite Hg in Hinv. by destruct Hinv as (first & rest & -> & _ & Htargets).
Qed.

Lemma groupByTags_excludes_not_running_witness :
  let a := mk_instance "i-a" (Some "10.0.0.1") 16 [("Name", "web")] in
  let c := mk_instance "i-c" (Some "10.0.0.3") 48 [("Name", "web")] in
  let e := mk_instance "i-e" (Some "10.0.0.5") 16 [("Name", "web")] in
  state_code c = Some 48 /\ 48 <> 16 /\
  groupByTags 80 ([a] ++ c :: [e]) ["Name"] = groupByTags 80 ([a] ++ [e]) ["Name"] /\
  groupByTags 80 ([a] ++ c :: [e]) ["Name"]
  = Ok {[ "|Name=web" := {| Targets := ["10.0.0.1:80"; "10.0.0.5:80"];
                            Labels := {[ "Name" := "web" ]} |} ]}.
Proof.
  intros a c e.
  assert (state_code c = Some 48) as Hc by reflexivity.
  assert (48 <> 16) as Hne by lia.
  destruct (groupByTags_excludes_not_running 80 ["Name"] [a] [e] c 48 Hc Hne)
    as [Heq _].
  split_and!; [exact Hc|exact Hne|exact Heq|].
  rewrite Heq. vm_compute. reflexivity.
Defined.

(** *** Partition by signature *)

(** A suffix cancels. *)
Lemma string_app_inv_tail (s1 s2 suffix : string) :
  s1 +:+ suffix = s2 +:+ suffix -> s1 = s2.
Proof.
  assert (forall s t : string, String.length (s +:+ t)
                               = (String.length s + String.length t)%nat) as Hlen.
  { intros s t. induction s as [|c s IH]; [done|].
    change (S (String.length (s +:+ t)) = S (String.length s + String.length t)).
    by rewrite IH. }
  revert s2. induction s1 as [|c s1 IH]; intros [|d s2] Heq.
  - done.
  - apply (f_equal String.length) in Heq.
    change (String d s2 +:+ suffix) with (String d (s2 +:+ suffix)) in Heq.
    change ("" +:+ suffix) with suffix in Heq.
    simpl in Heq. rewrite Hlen in Heq. lia.
  - apply (f_equal String.length) in Heq.
    change (String c s1 +:+ suffix) with (String c (s1 +:+ suffix)) in Heq.
    change ("" +:+ suffix) with suffix in Heq.
    simpl in Heq. rewrite Hlen in Heq. lia.
  - change (String c (s1 +:+ suffix) = String d (s2 +:+ suffix)) in Heq.
    injection Heq as -> Heq. by rewrite (IH s2 Heq).
Qed.

(** The target entry determines the private address. *)
Lemma target_of_inj port ip1 ip2 :
  target_of port ip1 = target_of port ip2 -> ip1 = ip2.
Proof. apply string_app_inv_tail. Qed.

(** C2, as amended.  In a run of the grouping engine that returns, each
    Target Group holds one target per running instance of its Grouping
    Signature, in input order, and no other entry.  Two running instances
    [a] and [b] whose signatures are equal have their targets in the same
    Target Group, the one stored under that signature; so have two whose
    private addresses are equal, whatever their signatures.  Provided no
    two running instances with different signatures have the same private
    address, the targets of [a] and [b] appear in the same Target Group if
    and only if the signatures of [a] and [b] are equal. *)
Theorem same_group_iff_same_signature (port : Z) (tags : list string)
    (instances : list ec2.Instance) (a b : ec2.Instance)
    (m : gmap string TargetGroup) :
  groupByTags port instances tags = Ok m ->
  a ∈ instances -> b ∈ instances ->
  state_code a = Some 16 -> state_code b = Some 16 ->
  (forall k g, m !! k = Some g ->
     Forall2 (is_target_of port) (Targets g) (group_members tags k instances)) /\
  (signature a tags = signature b tags ->
     exists k, signature a tags = Ok k /\
               in_group port m k a /\ in_group port m k b) /\
  (ec2.PrivateIpAddress a = ec2.PrivateIpAddress b -> same_group port m a b) /\
  (addresses_apart tags instances ->
     (same_group port m a b <-> signature a tags = signature b tags)).
Proof.
  intros Hrun Ha Hb Hcodea Hcodeb.
  destruct (groupByTags_running port tags instances m a Hrun Ha Hcodea)
    as (ka & ipa & Hsiga & Hipa).
  destruct (groupByTags_running port tags instances m b Hrun Hb Hcodeb)
    as (kb & ipb & Hsigb & Hipb).
  pose proof (groupByTags_in_group port tags instances m a ka Hrun Ha Hcodea Hsiga)
    as Hina.
  pose proof (groupByTags_in_group port tags instances m b kb Hrun Hb Hcodeb Hsigb)
    as Hinb.
  assert (signature a tags = signature b tags ->
          exists k, signature a tags = Ok k /\
                    in_group port m k a /\ in_group port m k b) as Hif.
  { intros Heq. exists ka. rewrite Hsiga, Hsigb in Heq. by simplify_eq. }
  split_and!; [|exact Hif| |].
  - intros k g Hg.
    pose proof (groupByTags_groups port tags instances m Hrun k) as Hinv.
    rewrite Hg in Hinv. by destruct Hinv as (first & rest & -> & _ & Htargets).
  - intros Hip. exists ka. split; [done|].
    destruct Hina as (g & t & Hg & Htgt & Ht). exists g, t. split_and!; [done| |done].
    unfold is_target_of, instance_target in *. by rewrite <-Hip.
  - intros Hapart. split; [|intros Heq; destruct (Hif Heq) as (k & _ & ?); by exists k].
    intros (k & (g & ta & Hg & Htgta & Hta) & (g' & tb & Hg' & Htgtb & Htb)).
    assert (forall i t, i ∈ instances -> state_code i = Some 16 ->
                        is_target_of port t i -> t ∈ Targets g ->
                        signature i tags = Ok k) as Hsig.
    { intros i t Hi Hcode Htgt Ht.
      destruct (groupByTags_entry port tags instances m k g t Hrun Hg Ht)
        as (c & Hc & Hcodec & Hsigc & Htgtc).
      rewrite <-Hsigc. apply Hapart; [done..|].
      unfold is_target_of, instance_target in Htgt, Htgtc.
      destruct (ec2.PrivateIpAddress i) as [ip|], (ec2.PrivateIpAddress c) as [ip'|];
        simplify_eq/=.
      f_equal. by eapply target_of_inj. }
    rewrite Hg in Hg'. injection Hg' as <-.
    rewrite (Hsig a ta), (Hsig b tb); done.
Qed.

Lemma same_group_iff_same_signature_witness :
  let a := mk_instance "i-a" (Some "10.0.0.1") 16 [("Name", "web")] in
  let b := mk_instance "i-b" (Some "10.0.0.2") 16 [("Name", "web"); ("Role", "x")] in
  let c := mk_instance "i-c" (Some "10.0.0.3") 16 [("Name", "db")] in
  let m := {[ "|Name=web" := {| Targets := ["10.0.0.1:80"; "10.0.0.2:80"];
                                Labels := {[ "Name" := "web" ]} |};
              "|Name=db" := {| Targets := ["10.0.0.3:80"];
                               Labels := {[ "Name" := "db" ]} |} ]} in
  groupByTags 80 [a; c; b] ["Name"] = Ok m /\
  addresses_apart ["Name"] [a; c; b] /\
  (same_group 80 m a b <-> signature a ["Name"] = signature b ["Name"]) /\
  same_group 80 m a b /\
  ~ same_group 80 m a c.
Proof.
  intros a b c m.
  assert (groupByTags 80 [a; c; b] ["Name"] = Ok m) as Hrun
    by (vm_compute; reflexivity).
  assert (a ∈ [a; c; b]) as Ha by apply list_elem_of_here.
  assert (c ∈ [a; c; b]) as Hc by apply list_elem_of_further, list_elem_of_here.
  assert (b ∈ [a; c; b]) as Hb
    by apply list_elem_of_further, list_elem_of_further, list_elem_of_here.
  assert (addresses_apart ["Name"] [a; c; b]) as Hapart.
  { intros x y Hx Hy _ _ Hip.
    repeat (apply elem_of_cons in Hx as [->|Hx]);
      try (by apply elem_of_nil in Hx);
      repeat (apply elem_of_cons in Hy as [->|Hy]);
      try (by apply elem_of_nil in Hy);
      first [reflexivity|discriminate Hip]. }
  destruct (same_group_iff_same_signature 80 ["Name"] [a; c; b] a b m Hrun Ha Hb
              eq_refl eq_refl) as (_ & _ & _ & Hab).
  destruct (same_group_iff_same_signature 80 ["Name"] [a; c; b] a c m Hrun Ha Hc
              eq_refl eq_refl) as (_ & _ & _ & Hac).
  split_and!; [exact Hrun|exact Hapart|exact (Hab Hapart)| |].
  - apply (Hab Hapart). vm_compute. reflexivity.
  - intros Hsame. apply (Hac Hapart) in Hsame. vm_compute in Hsame.
    discriminate Hsame.
Defined.

(** Two running instances with one private address and different
    signatures: each of the two groups holds the target of both. *)
Lemma shared_address_same_group :
  let a := mk_instance "i-a" (Some "10.0.0.1") 16 [("Name", "web")] in
  let b := mk_instance "i-b" (Some "10.0.0.1") 16 [("Name", "db")] in
  let m := {[ "|Name=web" := {| Targets := ["10.0.0.1:80"];
                                Labels := {[ "Name" := "web" ]} |};
              "|Name=db" := {| Targets := ["10.0.0.1:80"];
                               Labels := {[ "Name" := "db" ]} |} ]} in
  groupByTags 80 [a; b] ["Name"] = Ok m /\
  state_code a = Some 16 /\ state_code b = Some 16 /\
  signature a ["Name"] = Ok "|Name=web" /\
  signature b ["Name"] = Ok "|Name=db" /\
  same_group 80 m a b.
Proof.
  intros a b m. split_and!; try (vm_compute; reflexivity).
  exists "|Name=web".
  split; exists {| Targets := ["10.0.0.1:80"]; Labels := {[ "Name" := "web" ]} |},
                "10.0.0.1:80";
    (split_and!; [vm_compute; reflexivity|vm_compute; reflexivity|
                  apply list_elem_of_here]).
Qed.

(** *** Labels *)

Lemma string_app_assoc (s1 s2 s3 : string) :
  (s1 +:+ s2) +:+ s3 = s1 +:+ s2 +:+ s3.
Proof. induction s1 as [|c s1 IH]; [done|]. exact (f_equal (String c) IH). Qed.

Lemma string_app_nil_r (s : string) : s +:+ "" = s.
Proof. induction s as [|c s IH]; [done|]. exact (f_equal (String c) IH). Qed.

(** Two strings that both stop at their first [c] are equal when what they
    start is. *)
Lemma app_byte_inj c (v w r1 r2 : string) :
  has_byte c v = false -> has_byte c w = false ->
  v +:+ String c r1 = w +:+ String c r2 -> v = w /\ r1 = r2.
Proof.
  revert w. induction v as [|a v IH]; intros [|b w]; simpl; intros Hv Hw Heq.
  - by simplify_eq.
  - apply orb_false_elim in Hw as [Hb _]. apply bool_decide_eq_false in Hb.
    by simplify_eq.
  - apply orb_false_elim in Hv as [Ha _]. apply bool_decide_eq_false in Ha.
    by simplify_eq.
  - apply orb_false_elim in Hv as [_ Hv]. apply orb_false_elim in Hw as [_ Hw].
    injection Heq as -> Heq. destruct (IH w Hv Hw Heq) as [-> ->]. done.
Qed.

Lemma for_range_ext {A St} (body1 body2 : St -> A -> result St) l s :
  (forall s x, x ∈ l -> body1 s x = body2 s x) ->
  for_range body1 l s = for_range body2 l s.
Proof.
  revert s. induction l as [|x l IH]; intros s Hext; simpl; [done|].
  rewrite Hext by apply list_elem_of_here.
  destruct (body2 s x); simpl; [|done..].
  apply IH. intros s' y Hy. by apply Hext, list_elem_of_further.
Qed.

Section Labels.
Implicit Types (a b instance : ec2.Instance) (tags : list string).

Lemma signature_body_eq instance (key t : string) :
  signature_body instance key t =
  v ← getTag instance t; Ok (key +:+ "|" +:+ t +:+ "=" +:+ v).
Proof. done. Qed.

(** The signature loop appends to the key it starts from. *)
Lemma signature_loop_shift instance tags (p acc : string) :
  for_range (signature_body instance) tags (p +:+ acc) =
  s ← for_range (signature_body instance) tags acc; Ok (p +:+ s).
Proof.
  revert acc. induction tags as [|t ts IH]; intros acc; simpl; [done|].
  unfold signature_body.
  destruct (getTag instance t) as [v| |]; simpl; [|done..].
  rewrite string_app_assoc. apply IH.
Qed.

Lemma signature_cons instance t ts :
  signature instance (t :: ts) =
  v ← getTag instance t;
  s ← signature instance ts;
  Ok ("|" +:+ t +:+ "=" +:+ v +:+ s).
Proof.
  unfold signature. simpl. rewrite signature_body_eq.
  destruct (getTag instance t) as [v| |]; simpl; [|done..].
  rewrite <-(string_app_nil_r ("" +:+ "|" +:+ t +:+ "=" +:+ v)).
  rewrite signature_loop_shift.
  destruct (for_range _ ts ""); simpl; [|done..].
  by rewrite !string_app_assoc.
Qed.

(** When no tag value has a bar, the signature determines the values of
    the selected tags. *)
Lemma signature_inj a b tags k :
  signature a tags = Ok k -> signature b tags = Ok k ->
  (forall key v, key ∈ tags -> getTag a key = Ok v -> has_byte "|" v = false) ->
  (forall key v, key ∈ tags -> getTag b key = Ok v -> has_byte "|" v = false) ->
  forall key, key ∈ tags -> getTag a key = getTag b key.
Proof.
  revert k. induction tags as [|t ts IH]; intros k Ha Hb Hbara Hbarb key Hkey.
  { by apply elem_of_nil in Hkey. }
  rewrite signature_cons in Ha, Hb.
  apply bind_Ok_inv in Ha as (va & Hva & Ha).
  apply bind_Ok_inv in Ha as (sa & Hsa & Ha).
  apply bind_Ok_inv in Hb as (vb & Hvb & Hb).
  apply bind_Ok_inv in Hb as (sb & Hsb & Hb).
  assert (va +:+ sa = vb +:+ sb) as Heq.
  { rewrite <-Ha in Hb. injection Hb as Hb.
    apply (inj (String.app t)) in Hb. by injection Hb. }
  assert (va = vb /\ sa = sb) as [-> ->].
  { destruct ts as [|t' ts].
    - unfold signature in Hsa, Hsb. simpl in *. simplify_eq.
      by rewrite !string_app_nil_r in Heq.
    - rewrite signature_cons in Hsa, Hsb.
      apply bind_Ok_inv in Hsa as (? & _ & Hsa).
      apply bind_Ok_inv in Hsa as (? & _ & [= <-]).
      apply bind_Ok_inv in Hsb as (? & _ & Hsb).
      apply bind_Ok_inv in Hsb as (? & _ & [= <-]).
      simpl in Heq. apply app_byte_inj in Heq as [-> Heq].
      + split; [done|]. simpl. by f_equal.
      + eapply Hbara; [|done]. apply list_elem_of_here.
      + eapply Hbarb; [|done]. apply list_elem_of_here. }
  apply elem_of_cons in Hkey as [->|Hkey]; [congruence|].
  eapply IH; eauto.
  - intros key' v Hin. apply Hbara. by apply list_elem_of_further.
  - intros key' v Hin. apply Hbarb. by apply list_elem_of_further.
Qed.

(** The labels of a new group depend on the instance through the values
    of the selected tags only. *)
Lemma new_labels_ext a b tags :
  (forall key, key ∈ tags -> getTag a key = getTag b key) ->
  new_labels a tags = new_labels b tags.
Proof.
  intros Hext. unfold new_labels. apply for_range_ext.
  intros labels key Hkey. unfold labels_body. by rewrite Hext.
Qed.

Lemma labels_loop_lookup instance tags acc labels key :
  for_range (labels_body instance) tags acc = Ok labels ->
  labels !! key =
  if decide (key ∈ tags) then
    match getTag instance key with
    | Ok v => if decide (v ≠ "") then Some v else acc !! key
    | _ => acc !! key
    end
  else acc !! key.
Proof.
  revert acc. induction tags as [|t ts IH]; intros acc Hloop; simpl in Hloop.
  { rewrite decide_False by apply not_elem_of_nil. congruence. }
  apply bind_Ok_inv in Hloop as (acc' & Hbody & Hloop).
  unfold labels_body in Hbody.
  apply bind_Ok_inv in Hbody as (vt & Hvt & Hacc').
  rewrite (IH _ Hloop). clear IH Hloop.
  destruct (decide (key = t)) as [->|Hne].
  - rewrite (decide_True (P := t ∈ t :: ts)) by apply list_elem_of_here.
    rewrite Hvt.
    case_decide; simplify_eq.
    + rewrite lookup_insert_eq. by repeat case_decide.
    + by repeat case_decide.
  - assert (acc' !! key = acc !! key) as ->.
    { case_decide; simplify_eq; [by rewrite lookup_insert_ne|done]. }
    destruct (decide (key ∈ ts)).
    + by rewrite (decide_True (P := key ∈ t :: ts))
        by by apply list_elem_of_further.
    + by rewrite (decide_False (P := key ∈ t :: ts))
        by by apply not_elem_of_cons.
Qed.

(** The labels of a new group: the selected keys whose tag has a value
    that is not empty, each with that value. *)
Lemma new_labels_lookup instance tags labels key v :
  new_labels instance tags = Ok labels ->
  labels !! key = Some v <->
  key ∈ tags /\ getTag instance key = Ok v /\ v <> "".
Proof.
  intros Hl. rewrite (labels_loop_lookup _ _ _ _ key Hl), lookup_empty.
  case_decide as Hin; [|split; [done|by intros [? _]]].
  destruct (getTag instance key) as [v'| |];
    [|split; [done|by intros (_ & ? & _)]..].
  case_decide as Hv'.
  - split; [by intros [= ->]|]. by intros (_ & [= ->] & _).
  - split; [done|]. by intros (_ & [= ->] & Hne).
Qed.
End Labels.

(** An instance enters the loop through its state code, its private address
    and the values [getTag] finds. *)
Lemma groupByTags_body_ext port tags m (a b : ec2.Instance) :
  ec2.State a = ec2.State b ->
  ec2.PrivateIpAddress a = ec2.PrivateIpAddress b ->
  (forall key, getTag a key = getTag b key) ->
  groupByTags_body port tags m a = groupByTags_body port tags m b.
Proof.
  intros Hstate Hip Htag. unfold groupByTags_body. rewrite Hstate, Hip.
  assert (signature a tags = signature b tags) as ->.
  { apply for_range_ext. intros key t _. unfold signature_body. by rewrite Htag. }
  by rewrite (new_labels_ext a b tags) by auto.
Qed.

(** A tag whose value is the empty string reads as a tag that is missing. *)
Lemma getTag_empty_value (before after : list ec2.Tag) (k key : string) :
  Forall (fun t => exists k', ec2.Key t = Some k' /\ k' <> k) after ->
  getTag_loop (before ++ {| ec2.Key := Some k; ec2.Value := Some "" |} :: after) key
  = getTag_loop (before ++ after) key.
Proof.
  intros Hafter. induction before as [|t before IH]; simpl.
  - destruct (decide (k = key)) as [->|Hne]; [|done].
    induction Hafter as [|t after (k' & Hk' & Hne) _ IH]; simpl; [done|].
    rewrite Hk'. simpl. by rewrite decide_False.
  - destruct (ec2.Key t) as [k'|]; simpl; [|done]. by case_decide.
Qed.

(** C10, as amended.  The labels of a Target Group are those computed from
    the first running instance of its Grouping Signature: the selector keys
    whose tag value on that instance is not empty, each mapped to that
    value.  When no value of a selected tag on a running instance contains
    a bar, the labels are determined by the signature: they are the labels
    that every running instance of that signature gives, whichever of them
    created the group.  And a tag with the empty string for value counts as
    a missing tag: the run gives the same groups and labels without it. *)
Theorem labels_determined_by_signature (port : Z) (tags : list string)
    (instances : list ec2.Instance) (m : gmap string TargetGroup)
    (k : string) (g : TargetGroup) :
  groupByTags port instances tags = Ok m ->
  m !! k = Some g ->
  (exists first rest,
     group_members tags k instances = first :: rest /\
     new_labels first tags = Ok (Labels g) /\
     forall key v, Labels g !! key = Some v <->
                   key ∈ tags /\ getTag first key = Ok v /\ v <> "") /\
  ((forall i key v, i ∈ instances -> state_code i = Some 16 -> key ∈ tags ->
                    getTag i key = Ok v -> has_byte "|" v = false) ->
   forall i, i ∈ instances -> state_code i = Some 16 -> signature i tags = Ok k ->
     new_labels i tags = Ok (Labels g) /\
     forall key v, Labels g !! key = Some v <->
                   key ∈ tags /\ getTag i key = Ok v /\ v <> "") /\
  (forall pre post i before after key0,
     ec2.Tags i = before ++ {| ec2.Key := Some key0; ec2.Value := Some "" |} :: after ->
     Forall (fun t => exists k', ec2.Key t = Some k' /\ k' <> key0) after ->
     groupByTags port (pre ++ i :: post) tags =
     groupByTags port (pre ++ with_Tags i (before ++ after) :: post) tags).
Proof.
  intros Hrun Hg.
  pose proof (groupByTags_groups port tags instances m Hrun k) as Hinv.
  rewrite Hg in Hinv. destruct Hinv as (first & rest & Hmem & Hlabels & _).
  split_and!.
  - exists first, rest. split_and!; [done..|].
    intros key v. by apply new_labels_lookup.
  - intros Hbar i Hi Hcode Hsig.
    assert (first ∈ group_members tags k instances) as Hfirst
      by (rewrite Hmem; apply list_elem_of_here).
    apply list_elem_of_filter in Hfirst as [[Hcode1 Hsig1] Hin1].
    assert (new_labels i tags = Ok (Labels g)) as Hnew.
    { rewrite <-Hlabels. apply new_labels_ext.
      apply (signature_inj i first tags k); eauto. }
    split; [done|]. intros key v. by apply new_labels_lookup.
  - intros pre post i before after key0 Htags Hafter.
    unfold groupByTags. rewrite !for_range_app.
    destruct (for_range _ pre ∅) as [m1| |]; simpl; [|done..].
    rewrite (groupByTags_body_ext port tags m1 i (with_Tags i (before ++ after)));
      [done..|].
    intros key. unfold getTag. rewrite Htags. simpl.
    by apply getTag_empty_value.
Qed.

(** Two running instances whose tag values differ and whose signatures are
    equal: the labels of their group are those of the one that comes
    first. *)
Lemma labels_not_determined_by_signature :
  exists k m1 m2 g1 g2,
    signature bar_first ["a"; "b"] = Ok k /\
    signature bar_second ["a"; "b"] = Ok k /\
    groupByTags 80 [bar_first; bar_second] ["a"; "b"] = Ok m1 /\
    groupByTags 80 [bar_second; bar_first] ["a"; "b"] = Ok m2 /\
    m1 !! k = Some g1 /\ m2 !! k = Some g2 /\
    Labels g1 = {[ "a" := "x|b=y" ]} /\
    Labels g2 = {[ "a" := "x"; "b" := "y|b=" ]} /\
    Labels g1 <> Labels g2.
Proof.
  exists "|a=x|b=y|b=",
    {[ "|a=x|b=y|b=" := {| Targets := ["10.0.0.1:80"; "10.0.0.2:80"];
                           Labels := {[ "a" := "x|b=y" ]} |} ]},
    {[ "|a=x|b=y|b=" := {| Targets := ["10.0.0.2:80"; "10.0.0.1:80"];
                           Labels := {[ "a" := "x"; "b" := "y|b=" ]} |} ]}.
  do 2 eexists. split_and!; try (vm_compute; reflexivity).
  simpl. intros Heq. apply (f_equal (fun l => l !! "b")) in Heq. by vm_compute in Heq.
Qed.

Lemma labels_determined_by_signature_witness :
  let a := mk_instance "i-a" (Some "10.0.0.1") 16 [("Name", "web"); ("Role", "")] in
  let b := mk_instance "i-b" (Some "10.0.0.2") 16 [("Name", "web")] in
  let g := {| Targets := ["10.0.0.1:80"; "10.0.0.2:80"];
              Labels := {[ "Name" := "web" ]} |} in
  groupByTags 80 [a; b] ["Name"; "Role"] = Ok {[ "|Name=web|Role=" := g ]} /\
  (exists first rest,
     group_members ["Name"; "Role"] "|Name=web|Role=" [a; b] = first :: rest /\
     new_labels first ["Name"; "Role"] = Ok (Labels g)) /\
  new_labels b ["Name"; "Role"] = Ok (Labels g) /\
  groupByTags 80 ([] ++ a :: [b]) ["Name"; "Role"]
  = groupByTags 80
      ([] ++ with_Tags a ([ {| ec2.Key := Some "Name"; ec2.Value := Some "web" |} ] ++ [])
          :: [b])
      ["Name"; "Role"].
Proof.
  intros a b g.
  assert (groupByTags 80 [a; b] ["Name"; "Role"] = Ok {[ "|Name=web|Role=" := g ]})
    as Hrun by (vm_compute; reflexivity).
  assert (forall i key v, i ∈ [a; b] -> state_code i = Some 16 ->
                          key ∈ ["Name"; "Role"] -> getTag i key = Ok v ->
                          has_byte "|" v = false) as Hbar.
  { intros i key v Hi _ Hkey Hv.
    apply elem_of_cons in Hi as [->|Hi];
      [|apply list_elem_of_singleton in Hi as ->];
      (apply elem_of_cons in Hkey as [->|Hkey];
       [|apply list_elem_of_singleton in Hkey as ->]);
      vm_compute in Hv; injection Hv as <-; reflexivity. }
  destruct (labels_determined_by_signature 80 ["Name"; "Role"] [a; b]
              {[ "|Name=web|Role=" := g ]} "|Name=web|Role=" g Hrun
              (lookup_singleton_eq _ _))
    as ((first & rest & Hmem & Hfirst & _) & Hlabels & Hempty).
  split_and!; [exact Hrun|by exists first, rest| |].
  - apply (Hlabels Hbar b); [|reflexivity|vm_compute; reflexivity].
    apply list_elem_of_further, list_elem_of_here.
  - apply (Hempty [] [b] a
             [ {| ec2.Key := Some "Name"; ec2.Value := Some "web" |} ] [] "Role");
      [reflexivity|apply Forall_nil_2].
Defined.

(** ** Key discovery fallback *)

Lemma allTagKeys_eq order instances :
  allTagKeys order instances =
  tagSet ← tagSet_of instances; Ok (sort_Strings (order tagSet)).
Proof.
  unfold allTagKeys, tagSet_of.
  destruct (for_range _ instances ∅); simpl; [|done..].
  by rewrite foldl_snoc_copy.
Qed.

Lemma tagSet_tags_loop (ts : list ec2.Tag) (acc : gmap string ()) :
  Forall (fun t => is_Some (ec2.Key t)) ts ->
  exists tagSet,
    for_range allTagKeys_tag ts acc = Ok tagSet /\
    forall k, is_Some (tagSet !! k) <-> is_Some (acc !! k) \/ k ∈ omap ec2.Key ts.
Proof.
  intros Hwf. revert acc.
  induction Hwf as [|t ts [k0 Hk0] _ IH]; intros acc; simpl.
  - exists acc. split; [done|]. intros k. rewrite elem_of_nil. tauto.
  - assert (allTagKeys_tag acc t = Ok (<[k0 := tt]> acc)) as ->
      by (unfold allTagKeys_tag; by rewrite Hk0).
    simpl. destruct (IH (<[k0 := tt]> acc)) as (tagSet & -> & Hdom).
    exists tagSet. split; [done|]. intros k. rewrite Hdom, Hk0. simpl.
    rewrite elem_of_cons, lookup_insert_is_Some.
    change (list_omap ec2.Tag string ec2.Key ts) with (omap ec2.Key ts).
    destruct (decide (k0 = k)) as [->|Hne]; [tauto|].
    assert (k = k0 <-> False) as -> by (split; [congruence|done]). tauto.
Qed.

Lemma tagSet_instances_loop (instances : list ec2.Instance) (acc : gmap string ()) :
  keys_present instances ->
  exists tagSet,
    for_range allTagKeys_instance instances acc = Ok tagSet /\
    forall k, is_Some (tagSet !! k) <-> is_Some (acc !! k) \/ k ∈ tag_keys instances.
Proof.
  intros Hwf. revert acc.
  induction Hwf as [|i instances Hi _ IH]; intros acc; simpl.
  - exists acc. split; [done|]. intros k. unfold tag_keys. simpl.
    rewrite elem_of_nil. tauto.
  - destruct (tagSet_tags_loop (ec2.Tags i) acc Hi) as (acc' & Hacc' & Hdom').
    assert (allTagKeys_instance acc i = Ok acc') as -> by done. simpl.
    destruct (IH acc') as (tagSet & -> & Hdom).
    exists tagSet. split; [done|]. intros k. rewrite Hdom, Hdom'.
    unfold tag_keys. rewrite elem_of_app. tauto.
Qed.

(** A set of keys is known by its members. *)
Lemma tagSet_ext (s1 s2 : gmap string ()) :
  (forall k, is_Some (s1 !! k) <-> is_Some (s2 !! k)) -> s1 = s2.
Proof.
  intros Hext. apply map_eq. intros k. specialize (Hext k).
  destruct (s1 !! k) as [[]|], (s2 !! k) as [[]|]; try done.
  - destruct Hext as [Hext _]. by destruct Hext.
  - destruct Hext as [_ Hext]. by destruct Hext.
Qed.

Lemma tag_keys_spec instances k :
  k ∈ tag_keys instances <->
  exists i t, i ∈ instances /\ t ∈ ec2.Tags i /\ ec2.Key t = Some k.
Proof.
  unfold tag_keys. rewrite list_elem_of_bind. split.
  - intros (i & Hk & Hi). apply list_elem_of_omap in Hk as (t & Ht & Hkey). eauto.
  - intros (i & t & Hi & Ht & Hkey). exists i. split; [|done].
    apply list_elem_of_omap. eauto.
Qed.

(** The keys of a selector sequence start with the key of its first
    selector. *)
Lemma Keys_loop_prefix (tags : Tags) seen keys :
  exists more, snd (foldl Keys_body (seen, keys) tags) = keys ++ more.
Proof.
  revert seen keys. induction tags as [|t ts IH]; intros seen keys; simpl.
  - exists []. by rewrite app_nil_r.
  - destruct (negb (default false (seen !! Key t))).
    + destruct (IH (<[Key t := true]> seen) (keys ++ [Key t])) as [more ->].
      exists (Key t :: more). by rewrite <-app_assoc.
    + apply IH.
Qed.

Lemma Keys_nil_iff (tags : Tags) : Keys tags = [] <-> tags = [].
Proof.
  split; [|by intros ->]. destruct tags as [|t ts]; [done|].
  unfold Keys. simpl. rewrite lookup_empty. simpl.
  destruct (Keys_loop_prefix ts (<[Key t := true]> ∅) [Key t]) as [more ->].
  done.
Qed.

(** The fallback does not depend on the order in which the set of keys is
    visited. *)
Lemma allTagKeys_order_irrelevant order1 order2 instances :
  range_order order1 -> range_order order2 ->
  allTagKeys order1 instances = allTagKeys order2 instances.
Proof.
  intros H1 H2. rewrite !allTagKeys_eq.
  destruct (tagSet_of instances) as [tagSet| |]; simpl; [|done..].
  f_equal. apply sort_Strings_unique. by rewrite (H1 tagSet), (H2 tagSet).
Qed.

(** C5.  The key discovery fallback returns the union of the tag keys of all
    the instances: every such key, each once, in strictly increasing
    lexicographic order.  Instance sets with the same tag keys give the same
    sequence, whatever order the set of keys is visited in.  [main] resorts
    to the fallback only when the parsed selector sequence is empty. *)
Theorem allTagKeys_sorted_union (order : gmap string () -> list string)
    (instances : list ec2.Instance) :
  range_order order -> keys_present instances ->
  (exists keys,
      allTagKeys order instances = Ok keys /\
      StronglySorted String_lt keys /\
      forall k, k ∈ keys <->
                exists i t, i ∈ instances /\ t ∈ ec2.Tags i /\ ec2.Key t = Some k) /\
  (forall order' instances',
      range_order order' -> keys_present instances' ->
      (forall k, k ∈ tag_keys instances <-> k ∈ tag_keys instances') ->
      allTagKeys order' instances' = allTagKeys order instances) /\
  (forall tags : Tags,
      (tags = [] -> main_tagKeys order tags instances = allTagKeys order instances) /\
      (tags <> [] -> main_tagKeys order tags instances = Ok (Keys tags))).
Proof.
  intros Horder Hwf.
  destruct (tagSet_instances_loop instances ∅ Hwf) as (tagSet & HtagSet & Hdom).
  assert (forall k, is_Some (tagSet !! k) <-> k ∈ tag_keys instances) as Hdom'.
  { intros k. rewrite Hdom, lookup_empty. split; [|auto].
    intros [[? ?]|?]; done. }
  split_and!.
  - exists (sort_Strings (order tagSet)). split_and!.
    + rewrite allTagKeys_eq. unfold tagSet_of. by rewrite HtagSet.
    + apply sort_Strings_strict. rewrite (Horder tagSet).
      apply NoDup_fst_map_to_list.
    + intros k. rewrite <-tag_keys_spec, <-Hdom'.
      rewrite sort_Strings_Permutation, (Horder tagSet).
      rewrite list_elem_of_fmap. split.
      * intros ([k' v] & -> & Hkv). apply elem_of_map_to_list in Hkv. by eexists.
      * intros [v Hv]. exists (k, v). split; [done|]. by apply elem_of_map_to_list.
  - intros order' instances' Horder' Hwf' Hsame.
    destruct (tagSet_instances_loop instances' ∅ Hwf') as (tagSet' & HtagSet' & Hdom2).
    rewrite !allTagKeys_eq. unfold tagSet_of. rewrite HtagSet, HtagSet'. simpl.
    assert (tagSet' = tagSet) as ->.
    { apply tagSet_ext. intros k. rewrite Hdom2, Hdom', lookup_empty, Hsame.
      split; [|auto]. intros [[? ?]|?]; done. }
    f_equal. apply sort_Strings_unique. by rewrite (Horder tagSet), (Horder' tagSet).
  - intros tags. unfold main_tagKeys. split.
    + intros ->. done.
    + intros Hne. rewrite decide_False; [done|].
      intros Hlen. apply Hne, Keys_nil_iff. by apply nil_length_inv.
Qed.

Lemma allTagKeys_sorted_union_witness :
  range_order (@descending_range ()) /\ keys_present team_region /\
  allTagKeys descending_range team_region = Ok ["Region"; "Team"] /\
  allTagKeys ascending_range (reverse team_region) = Ok ["Region"; "Team"].
Proof.
  assert (keys_present team_region) as Hwf.
  { repeat (apply Forall_cons_2; [repeat constructor; by eexists|]).
    apply Forall_nil_2. }
  assert (keys_present (reverse team_region)) as Hwf'.
  { repeat (apply Forall_cons_2; [repeat constructor; by eexists|]).
    apply Forall_nil_2. }
  pose proof (allTagKeys_sorted_union descending_range team_region
                descending_range_order Hwf) as (_ & Hsame & _).
  split_and!; [apply descending_range_order|exact Hwf|by vm_compute|].
  rewrite (Hsame ascending_range (reverse team_region) ascending_range_order Hwf').
  - by vm_compute.
  - intros k. unfold tag_keys, team_region. simpl.
    rewrite !elem_of_cons. tauto.
Defined.

(** ** Serializer *)

Lemma marshalTargetGroups_eq quote order (m : gmap string TargetGroup) :
  marshalTargetGroups quote order m =
  json.MarshalIndent quote (map (fun k => m !! k) (sort_Strings (order m))) "" "  ".
Proof.
  unfold marshalTargetGroups. by rewrite foldl_snoc_copy, foldl_snoc_map.
Qed.

(** The serializer does not depend on the order in which the map of groups
    is visited. *)
Lemma marshalTargetGroups_order_irrelevant quote order1 order2
    (m : gmap string TargetGroup) :
  range_order order1 -> range_order order2 ->
  marshalTargetGroups quote order1 m = marshalTargetGroups quote order2 m.
Proof.
  intros H1 H2. rewrite !marshalTargetGroups_eq.
  by rewrite (sort_Strings_unique (order1 m) (order2 m)) by by rewrite H1, H2.
Qed.

Lemma sorted_groups_keys (m : gmap string TargetGroup) :
  (sorted_groups m).*1 = sort_Strings (map_to_list m).*1.
Proof.
  unfold sorted_groups.
  assert (Forall (fun k => is_Some (m !! k)) (sort_Strings (map_to_list m).*1)) as Hdom.
  { apply Forall_forall. intros k. rewrite sort_Strings_Permutation.
    intros ([k' g] & -> & Hkg)%list_elem_of_fmap.
    apply elem_of_map_to_list in Hkg. by eexists. }
  induction Hdom as [|k keys [g Hg] _ IH]; simpl; [done|].
  rewrite Hg. simpl. f_equal. exact IH.
Qed.

Lemma sorted_groups_lookup (m : gmap string TargetGroup) :
  map (fun k => m !! k) (sort_Strings (map_to_list m).*1)
  = map Some (sorted_groups m).*2.
Proof.
  unfold sorted_groups.
  assert (Forall (fun k => is_Some (m !! k)) (sort_Strings (map_to_list m).*1)) as Hdom.
  { apply Forall_forall. intros k. rewrite sort_Strings_Permutation.
    intros ([k' g] & -> & Hkg)%list_elem_of_fmap.
    apply elem_of_map_to_list in Hkg. by eexists. }
  induction Hdom as [|k keys [g Hg] _ IH]; simpl; [done|].
  rewrite Hg. simpl. f_equal. exact IH.
Qed.

Lemma sorted_groups_Permutation (m : gmap string TargetGroup) :
  sorted_groups m ≡ₚ map_to_list m.
Proof.
  unfold sorted_groups. rewrite sort_Strings_Permutation.
  assert (forall l : list (string * TargetGroup),
             (forall k g, (k, g) ∈ l -> m !! k = Some g) ->
             omap (fun k => pair k <$> m !! k) l.*1 = l) as Hl.
  { induction l as [|[k g] l IH]; intros Hin; [done|]. csimpl.
    rewrite (Hin k g) by apply list_elem_of_here. csimpl. f_equal.
    apply IH. intros k' g' Hkg. by apply Hin, list_elem_of_further. }
  rewrite Hl; [done|]. intros k g. apply elem_of_map_to_list.
Qed.

(** C6.  The serializer emits the Target Groups of the map, each once, in
    strictly increasing lexicographic order of their Grouping Signatures,
    laid out by [json.MarshalIndent] with an empty prefix and an indentation
    of two spaces. *)
Theorem marshalTargetGroups_sorted (quote : string -> string)
    (order : gmap string TargetGroup -> list string)
    (m : gmap string TargetGroup) :
  range_order order ->
  exists groups : list (string * TargetGroup),
    groups ≡ₚ map_to_list m /\
    StronglySorted String_lt groups.*1 /\
    marshalTargetGroups quote order m
    = json.MarshalIndent quote (map Some groups.*2) "" "  ".
Proof.
  intros Horder. exists (sorted_groups m). split_and!.
  - apply sorted_groups_Permutation.
  - rewrite sorted_groups_keys. apply sort_Strings_strict, NoDup_fst_map_to_list.
  - rewrite marshalTargetGroups_eq, <-sorted_groups_lookup.
    by rewrite (sort_Strings_unique (order m) (map_to_list m).*1).
Qed.

Lemma marshalTargetGroups_sorted_witness :
  range_order (@descending_range TargetGroup) /\
  (exists groups : list (string * TargetGroup),
      groups ≡ₚ map_to_list web_db /\
      StronglySorted String_lt groups.*1 /\
      marshalTargetGroups json.quote_plain descending_range web_db
      = json.MarshalIndent json.quote_plain (map Some groups.*2) "" "  ") /\
  descending_range web_db = ["|Name=web"; "|Name=db"] /\
  marshalTargetGroups json.quote_plain descending_range web_db = web_db_document.
Proof.
  split_and!.
  - apply descending_range_order.
  - exact (marshalTargetGroups_sorted json.quote_plain descending_range web_db
             descending_range_order).
  - by vm_compute.
  - by vm_compute.
Defined.

(** ** Atomic publisher *)

Lemma has_byte_app c (s1 s2 : string) :
  has_byte c (s1 +:+ s2) = has_byte c s1 || has_byte c s2.
Proof.
  induction s1 as [|a s1 IH]; [done|].
  change (has_byte c (String a s1 +:+ s2))
    with (bool_decide (a = c) || has_byte c (s1 +:+ s2)).
  rewrite IH. simpl. by rewrite orb_assoc.
Qed.

Lemma dir_of_app (path suffix : string) :
  has_byte "/" suffix = false -> dir_of (path +:+ suffix) = dir_of path.
Proof.
  intros Hs. induction path as [|c path IH].
  - change ("" +:+ suffix) with suffix. destruct suffix as [|c s]; [done|].
    simpl in *. by rewrite Hs.
  - change (String c path +:+ suffix) with (String c (path +:+ suffix)).
    cbn [dir_of]. rewrite IH. cbn [has_byte]. by rewrite has_byte_app, Hs, orb_false_r.
Qed.

Lemma string_app_ne (s suffix : string) : suffix <> "" -> s +:+ suffix <> s.
Proof.
  intros Hne Heq. apply Hne. apply (inj (String.app s)).
  by rewrite string_app_nil_r.
Qed.

(** When the run gets as far as the publisher, [main] ends as the
    publication of the document ends. *)
Lemma main_reaches_publisher quote aws os order_tags order_groups parsed w0 g b w :
  reaches_publisher quote aws order_tags order_groups parsed w0 g b w ->
  main quote aws os order_tags order_groups parsed w0
  = main_publish os (dest g) b w.
Proof.
  intros (description & descriptions & respHealth & healthyInstances & reservations
          & Hinit & Hs0 & Hlb & Hh & Hf & Hs1 & Hinv & Hdoc & ->).
  unfold main. rewrite Hinit, Hs0, Hlb. simpl. rewrite foldl_snoc_copy. simpl.
  rewrite Hh, Hf, Hs1, Hinv. unfold main_core. by rewrite Hdoc.
Qed.

(** C7.  For a destination path and the bytes of a document,
    [atomicWriteFile] first writes the bytes to the path with the suffix
    [.new], which lies in the directory of the destination, and then renames
    that file onto the destination.  When the write fails the rename is not
    attempted; when either fails the error is returned and the content of
    the destination is what it was; when both succeed the destination holds
    the bytes.  The publisher of [main] does exactly this for a destination
    other than [-] and ends in [log.Fatal] on the error; for the destination
    [-] it makes neither call and writes the bytes to standard output.  A
    run of [main] that gets as far as the publisher ends as the publisher
    does. *)
Theorem atomicWriteFile_spec (os : OS) (filename data : string) (w : World) :
  OS_contract os ->
  let tmp := filename +:+ ".new" in
  let written := os_WriteFile os (files w) tmp data in
  let renamed := os_Rename os written.1 tmp filename in
  let '(w', err) := atomicWriteFile os filename data ".new" w in
  dir_of tmp = dir_of filename /\
  stdout w' = stdout w /\
  match written.2 with
  | Some e =>
      err = Some e /\
      calls w' = calls w ++ [SysWriteFile tmp data] /\
      files w' !! filename = files w !! filename
  | None =>
      calls w' = calls w ++ [SysWriteFile tmp data; SysRename tmp filename] /\
      err = renamed.2 /\
      match renamed.2 with
      | Some e => files w' !! filename = files w !! filename
      | None => files w' !! filename = Some data
      end
  end /\
  (filename <> "-" ->
   main_publish os filename data w
   = (w', match err with Some e => Fatal e | None => Ok tt end)) /\
  (forall b,
     main_publish os "-" b w
     = (record (SysStdoutWrite b)
          {| files := files w; stdout := (os_StdoutWrite os (stdout w) b).1;
             calls := calls w |},
        match (os_StdoutWrite os (stdout w) b).2 with
        | Some e => Fatal e
        | None => Ok tt
        end)) /\
  forall quote aws order_tags order_groups parsed w0 g,
    reaches_publisher quote aws order_tags order_groups parsed w0 g data w ->
    main quote aws os order_tags order_groups parsed w0
    = main_publish os (dest g) data w.
Proof.
  intros Hos tmp written renamed.
  assert (filename <> tmp) as Hne by (symmetry; by apply string_app_ne).
  assert (forall b,
             main_publish os "-" b w
             = (record (SysStdoutWrite b)
                  {| files := files w; stdout := (os_StdoutWrite os (stdout w) b).1;
                     calls := calls w |},
                match (os_StdoutWrite os (stdout w) b).2 with
                | Some e => Fatal e
                | None => Ok tt
                end)) as Hstd.
  { intros b. unfold main_publish, os_Stdout_Write. simpl.
    by destruct (os_StdoutWrite os (stdout w) b) as [out [e|]]. }
  assert (forall quote aws order_tags order_groups parsed w0 g,
             reaches_publisher quote aws order_tags order_groups parsed w0 g data w ->
             main quote aws os order_tags order_groups parsed w0
             = main_publish os (dest g) data w) as Hmain
    by (intros; by apply main_reaches_publisher).
  assert (filename <> "-" ->
          main_publish os filename data w
          = ((atomicWriteFile os filename data ".new" w).1,
             match (atomicWriteFile os filename data ".new" w).2 with
             | Some e => Fatal e
             | None => Ok tt
             end)) as Hfile.
  { intros Hpath. unfold main_publish. rewrite decide_False by done.
    by destruct (atomicWriteFile os filename data ".new" w) as [w1 [e|]]. }
  revert Hfile.
  unfold atomicWriteFile, ioutil_WriteFile, os_Rename', record. simpl.
  fold tmp. fold written.
  pose proof (WriteFile_frame os Hos (files w) tmp data filename Hne) as Hframe.
  pose proof (WriteFile_ok os Hos (files w) tmp data) as Hok.
  fold written in Hframe, Hok.
  destruct written as [fs1 [e1|]] eqn:Hw; simpl in *.
  { intros Hfile. split_and!; try done. by apply dir_of_app. }
  pose proof (Rename_err os Hos fs1 tmp filename) as Herr.
  pose proof (Rename_ok os Hos fs1 tmp filename) as Hren.
  fold renamed in Herr, Hren |- *.
  destruct renamed as [fs2 [e2|]] eqn:Hr; simpl in *; intros Hfile.
  - split_and!; try done.
    + by apply dir_of_app.
    + by rewrite <-app_assoc.
    + rewrite Herr by done. done.
  - split_and!; try done.
    + by apply dir_of_app.
    + by rewrite <-app_assoc.
    + destruct (Hren eq_refl) as (content & Hcontent & ->).
      rewrite lookup_insert_eq. rewrite Hok in Hcontent by done. congruence.
Qed.

Lemma sim_OS_contract write_fails rename_fails :
  OS_contract (sim_OS write_fails rename_fails).
Proof.
  split; simpl.
  - intros fs name data p Hne. destruct write_fails; simpl; by rewrite lookup_insert_ne.
  - intros fs name data. destruct write_fails; simpl; [done|].
    intros _. by rewrite lookup_insert_eq.
  - intros fs oldpath newpath. destruct rename_fails; simpl; [done|].
    by destruct (fs !! oldpath).
  - intros fs oldpath newpath. destruct rename_fails; simpl; [done|].
    destruct (fs !! oldpath) as [content|]; simpl; [|done]. intros _. by eexists.
Qed.

Lemma scenario_reaches_publisher :
  reaches_publisher json.quote_plain scenario_aws ascending_range ascending_range
    file_flags sample_world scenario_globals scenario_document scenario_requested.
Proof.
  eexists _, _, _, _, _.
  split_and!; try (vm_compute; reflexivity).
Qed.

Lemma atomicWriteFile_spec_witness :
  let os := sim_OS false true in
  let path := "tgroups/target_groups.json" in
  let run := main json.quote_plain scenario_aws os ascending_range ascending_range
               file_flags sample_world in
  OS_contract os /\
  path <> "-" /\
  reaches_publisher json.quote_plain scenario_aws ascending_range ascending_range
    file_flags sample_world scenario_globals scenario_document scenario_requested /\
  run.2 = Fatal "permission denied" /\
  calls run.1
  = calls scenario_requested ++ [SysWriteFile (path +:+ ".new") scenario_document;
                                 SysRename (path +:+ ".new") path] /\
  files run.1 !! path = Some "[]".
Proof.
  intros os path run.
  assert (path <> "-") as Hpath by discriminate.
  pose proof (atomicWriteFile_spec os path scenario_document scenario_requested
                (sim_OS_contract false true)) as Hspec.
  cbv zeta in Hspec.
  destruct (atomicWriteFile _ _ _ _ _) as [w' err].
  destruct Hspec as (_ & _ & (Hcalls & Herr & Hdest) & Hfile & _ & Hmain).
  assert (run = (w', Fatal "permission denied")) as ->.
  { unfold run.
    rewrite (Hmain _ _ _ _ _ _ _ scenario_reaches_publisher).
    change (dest scenario_globals) with path.
    rewrite (Hfile Hpath), Herr. reflexivity. }
  split_and!; [apply sim_OS_contract|exact Hpath|exact scenario_reaches_publisher
              |reflexivity| |].
  - exact Hcalls.
  - simpl. rewrite Hdest. reflexivity.
Defined.

(** ** Determinism *)

Lemma main_tagKeys_order_irrelevant order1 order2 (tags : Tags) instances :
  range_order order1 -> range_order order2 ->
  main_tagKeys order1 tags instances = main_tagKeys order2 tags instances.
Proof.
  intros H1 H2. unfold main_tagKeys. case_decide; [|done].
  by apply allTagKeys_order_irrelevant.
Qed.

Lemma main_document_order_irrelevant quote order_tags1 order_groups1
    order_tags2 order_groups2 (g : Globals) instances :
  range_order order_tags1 -> range_order order_groups1 ->
  range_order order_tags2 -> range_order order_groups2 ->
  main_document quote order_tags1 order_groups1 g instances
  = main_document quote order_tags2 order_groups2 g instances.
Proof.
  intros Ht1 Hg1 Ht2 Hg2. unfold main_document.
  rewrite (main_tagKeys_order_irrelevant order_tags1 order_tags2) by done.
  destruct (main_tagKeys order_tags2 (tags g) instances) as [tagKeys| |];
    simpl; [|done..].
  destruct (groupByTags (port g) instances tagKeys) as [targetGroups| |];
    simpl; [|done..].
  f_equal. by apply marshalTargetGroups_order_irrelevant.
Qed.

(** C8.  Two runs on the same flags, against collaborators that answer the
    same, differ at most in the orders in which the two maps are visited:
    the order of the set of tag keys and the order of the groups.  Whatever
    these orders are, the Output Document that the pipeline computes from
    the instance records (fallback keys when no selector is given, grouping,
    serialization) is the same byte sequence, and so is the whole effect of
    [main], health filter included. *)
Theorem main_deterministic (quote : string -> string) (aws : AWS) (os : OS)
    (order_tags1 order_tags2 : gmap string () -> list string)
    (order_groups1 order_groups2 : gmap string TargetGroup -> list string)
    (parsed : Flags) (w : World) :
  range_order order_tags1 -> range_order order_groups1 ->
  range_order order_tags2 -> range_order order_groups2 ->
  (forall g instances,
      main_document quote order_tags1 order_groups1 g instances
      = main_document quote order_tags2 order_groups2 g instances) /\
  main quote aws os order_tags1 order_groups1 parsed w
  = main quote aws os order_tags2 order_groups2 parsed w.
Proof.
  intros Ht1 Hg1 Ht2 Hg2.
  assert (forall g instances,
             main_document quote order_tags1 order_groups1 g instances
             = main_document quote order_tags2 order_groups2 g instances) as Hdoc
    by (intros; by apply main_document_order_irrelevant).
  split; [done|]. unfold main.
  destruct (initFlags parsed) as [g| |]; [|done..].
  destruct (session_NewSession aws 0); [done|].
  destruct (elb_DescribeLoadBalancers aws _ _) as [descriptions|]; [|done].
  destruct (index descriptions 0) as [description| |]; [|done..].
  destruct (elb_DescribeInstanceHealth aws _ _ _) as [respHealth|]; [|done].
  destruct (filterHealthyInstances respHealth) as [healthyInstances| |]; [|done..].
  destruct (session_NewSession aws 1); [done|].
  destruct (ec2_DescribeInstances aws _ _) as [reservations|]; [|done].
  unfold main_core. by rewrite Hdoc.
Qed.

Lemma main_deterministic_witness :
  range_order (@ascending_range ()) /\ range_order (@ascending_range TargetGroup) /\
  range_order (@descending_range ()) /\ range_order (@descending_range TargetGroup) /\
  main json.quote_plain scenario_aws (sim_OS false false)
       ascending_range ascending_range scenario_flags sample_world
  = main json.quote_plain scenario_aws (sim_OS false false)
         descending_range descending_range scenario_flags sample_world /\
  stdout (main json.quote_plain scenario_aws (sim_OS false false)
            descending_range descending_range scenario_flags sample_world).1
  = scenario_document.
Proof.
  split_and!; try first [apply ascending_range_order|apply descending_range_order].
  - apply (main_deterministic json.quote_plain scenario_aws (sim_OS false false)
             ascending_range descending_range ascending_range descending_range);
      first [apply ascending_range_order|apply descending_range_order].
  - by vm_compute.
Defined.

(** ** Tag filter spec *)

Lemma strings_Split_length s c :
  length (strings_Split s c) = S (count_byte c s).
Proof.
  induction s as [|a s IH]; simpl; [done|].
  case_decide; simpl; [by rewrite IH|].
  destruct (strings_Split s c); simpl in *; lia.
Qed.

Lemma strings_Split_empty_field s c :
  strings_Split s c = [""] <-> s = "".
Proof.
  split; [|by intros ->]. destruct s as [|a s]; [done|]. simpl.
  case_decide.
  - intros Heq. apply (f_equal length) in Heq. simpl in Heq.
    rewrite strings_Split_length in Heq. lia.
  - by destruct (strings_Split s c).
Qed.

Lemma parseTags_body_selector (tags : Tags) i t :
  (count_byte "=" t <= 1)%nat ->
  parseTags_body tags i t = Ok (<[i := selector_of t]> tags).
Proof.
  intros Hcount. unfold parseTags_body, selector_of.
  pose proof (strings_Split_length t "=") as Hlen.
  destruct (strings_Split t "=") as [|p0 [|p1 [|p2 parts]]]; simpl in *; try done.
  lia.
Qed.

Lemma parseTags_body_fatal (tags : Tags) i t :
  (2 <= count_byte "=" t)%nat ->
  parseTags_body tags i t = Fatal ("Unrecognized tag filter " +:+ t).
Proof.
  intros Hcount. unfold parseTags_body.
  rewrite strings_Split_length.
  destruct (count_byte "=" t) as [|[|n]]; [lia..|done].
Qed.

Lemma parseTags_loop_selectors fields : forall i (tags : Tags),
  Forall (fun t => (count_byte "=" t <= 1)%nat) fields ->
  length tags = (i + length fields)%nat ->
  for_range_from parseTags_body i fields tags
  = Ok (take i tags ++ map selector_of fields).
Proof.
  induction fields as [|t fields IH]; intros i tags Hok Hlen; simpl in *.
  - rewrite app_nil_r, take_ge by lia. done.
  - apply Forall_cons in Hok as [Ht Hok].
    rewrite parseTags_body_selector by done. simpl.
    rewrite IH by (rewrite ?length_insert; done || lia).
    rewrite (take_S_r _ _ (selector_of t))
      by (apply list_lookup_insert_eq; lia).
    rewrite take_insert, decide_False by lia. by rewrite <-app_assoc.
Qed.

Lemma parseTags_loop_fatal fields : forall i (tags : Tags),
  Exists (fun t => (2 <= count_byte "=" t)%nat) fields ->
  exists bad, bad ∈ fields /\ (2 <= count_byte "=" bad)%nat /\
              for_range_from parseTags_body i fields tags
              = Fatal ("Unrecognized tag filter " +:+ bad).
Proof.
  induction fields as [|t fields IH]; intros i tags Hbad.
  { by apply Exists_nil in Hbad. }
  destruct (decide (2 <= count_byte "=" t)%nat) as [Ht|Ht].
  - exists t. split_and!; [apply list_elem_of_here|done|].
    simpl. by rewrite parseTags_body_fatal.
  - apply Exists_cons in Hbad as [?|Hbad]; [done|].
    simpl. rewrite parseTags_body_selector by lia. simpl.
    destruct (IH (S i) (<[i := selector_of t]> tags) Hbad) as (bad & Hin & Hc & ->).
    exists bad. split_and!; [by apply list_elem_of_further|done..].
Qed.

Lemma parseTags_guard tagsRaw :
  let fields := strings_Split tagsRaw "," in
  exists f0, index fields 0 = Ok f0 /\
             (f0 = "" /\ length fields = 1%nat <-> tagsRaw = "").
Proof.
  intros fields. pose proof (strings_Split_length tagsRaw ",") as Hlen.
  pose proof (strings_Split_empty_field tagsRaw ",") as Hempty.
  fold fields in Hlen, Hempty.
  destruct fields as [|f0 fields]; [done|]. exists f0. split; [done|].
  rewrite <-Hempty. split.
  - intros [-> Hl]. destruct fields; [done|]. simpl in Hl. lia.
  - by intros [= -> ->].
Qed.

(** C9, as amended.  A tag filter spec that has, among its comma-separated
    fields, one with more than one [=] is fatal: [parseTags] ends the
    process with a message that names the field, no selector is returned,
    and [main] has by then made no call and changed nothing.  A spec whose
    fields all have at most one [=] parses to one selector per field, in
    the order of the fields, unless it is the empty string, which parses to
    the empty sequence. *)
Theorem parseTags_spec (tagsRaw : string) :
  let fields := strings_Split tagsRaw "," in
  (Exists (fun t => (2 <= count_byte "=" t)%nat) fields ->
   exists bad,
     bad ∈ fields /\ (2 <= count_byte "=" bad)%nat /\
     parseTags tagsRaw = Fatal ("Unrecognized tag filter " +:+ bad) /\
     forall quote aws os order_tags order_groups parsed w,
       flag_tags parsed = tagsRaw ->
       main quote aws os order_tags order_groups parsed w
       = (w, Fatal ("Unrecognized tag filter " +:+ bad))) /\
  (Forall (fun t => (count_byte "=" t <= 1)%nat) fields ->
   tagsRaw <> "" ->
   parseTags tagsRaw = Ok (map selector_of fields)) /\
  (tagsRaw = "" -> parseTags tagsRaw = Ok []).
Proof.
  intros fields.
  destruct (parseTags_guard tagsRaw) as (f0 & Hf0 & Hguard). fold fields in Hf0, Hguard.
  split_and!.
  - intros Hbad.
    assert (tagsRaw <> "") as Hne.
    { intros ->. apply Exists_exists in Hbad as (t & Ht & Hc).
      apply list_elem_of_singleton in Ht as ->. simpl in Hc. lia. }
    destruct (parseTags_loop_fatal fields 0 (replicate (length fields) zero_Tag) Hbad)
      as (bad & Hin & Hc & Hloop).
    assert (parseTags tagsRaw = Fatal ("Unrecognized tag filter " +:+ bad)) as Hparse.
    { unfold parseTags. fold fields. rewrite Hf0. simpl.
      rewrite decide_False by (rewrite Hguard; done). done. }
    exists bad. split_and!; [done..|].
    intros quote aws os order_tags order_groups parsed w Hflag.
    unfold main, initFlags. rewrite Hflag, Hparse. done.
  - intros Hok Hne. unfold parseTags. fold fields. rewrite Hf0. simpl.
    rewrite decide_False by (rewrite Hguard; done).
    rewrite parseTags_loop_selectors; [done..|].
    by rewrite length_replicate.
  - intros ->. done.
Qed.

(** The empty spec has one field, the empty one, which has no [=], and
    parses to no selector. *)
Lemma parseTags_empty_no_selector :
  strings_Split "" "," = [""] /\
  Forall (fun t => count_byte "=" t = 0%nat) (strings_Split "" ",") /\
  parseTags "" = Ok [] /\
  length (strings_Split "" ",") <> length ([] : Tags).
Proof. split_and!; try done. by repeat constructor. Qed.

Lemma parseTags_spec_witness :
  parseTags "Application,Envionment=Production"
  = Ok [ {| Key := "Application"; FilterName := "tag-key";
            FilterValue := "Application" |};
         {| Key := "Envionment"; FilterName := "tag:Envionment";
            FilterValue := "Production" |} ] /\
  parseTags "a,b=c=d,e" = Fatal "Unrecognized tag filter b=c=d".
Proof.
  split.
  - pose proof (parseTags_spec "Application,Envionment=Production") as Hspec.
    cbv zeta in Hspec.
    assert (strings_Split "Application,Envionment=Production" ","
            = ["Application"; "Envionment=Production"]) as Hfields
      by (vm_compute; reflexivity).
    rewrite Hfields in Hspec. destruct Hspec as (_ & Hok & _).
    rewrite Hok.
    + vm_compute. reflexivity.
    + apply Forall_cons_2; [vm_compute; lia|].
      apply Forall_cons_2; [vm_compute; lia|]. apply Forall_nil_2.
    + discriminate.
  - pose proof (parseTags_spec "a,b=c=d,e") as Hspec.
    cbv zeta in Hspec.
    assert (strings_Split "a,b=c=d,e" "," = ["a"; "b=c=d"; "e"]) as Hfields
      by (vm_compute; reflexivity).
    rewrite Hfields in Hspec. destruct Hspec as (Hfatal & _).
    destruct Hfatal as (bad & Hin & Hc & -> & _).
    { apply Exists_cons_tl, Exists_cons_hd. vm_compute. lia. }
    apply elem_of_cons in Hin as [->|Hin]; [vm_compute in Hc; lia|].
    apply elem_of_cons in Hin as [->|Hin]; [reflexivity|].
    apply list_elem_of_singleton in Hin as ->. vm_compute in Hc. lia.
Defined.

(** * Further properties of the code *)

(** ** Runs that end in a panic *)

(** A loop whose body never exits the process ends in a panic as soon as
    one element makes the body panic in every state. *)
Lemma for_range_Panic {A St} (body : St -> A -> result St) (l : list A) (s : St) :
  (forall s x msg, body s x <> Fatal msg) ->
  Exists (fun x => forall s, body s x = Panic) l ->
  for_range body l s = Panic.
Proof.
  intros Hfatal Hbad. revert s.
  induction l as [|x l IH]; intros s; [by apply Exists_nil in Hbad|].
  simpl. destruct (body s x) as [s'| |msg] eqn:Hx; simpl; [|done|].
  - apply Exists_cons in Hbad as [Hbad|Hbad]; [|by apply IH].
    rewrite Hbad in Hx. done.
  - by apply Hfatal in Hx.
Qed.

Lemma for_range_not_Fatal {A St} (body : St -> A -> result St) (l : list A)
    (s : St) msg :
  (forall s x msg, body s x <> Fatal msg) -> for_range body l s <> Fatal msg.
Proof.
  intros Hfatal. revert s. induction l as [|x l IH]; intros s; simpl; [done|].
  destruct (body s x) as [s'| |msg'] eqn:Hx; simpl; [apply IH|done|].
  by apply Hfatal in Hx.
Qed.

Lemma deref_not_Fatal {A} (p : option A) msg : deref p <> Fatal msg.
Proof. by destruct p. Qed.

Lemma getTag_not_Fatal instance key msg : getTag instance key <> Fatal msg.
Proof.
  unfold getTag. induction (ec2.Tags instance) as [|t ts IH]; simpl; [done|].
  destruct (ec2.Key t) as [k|]; simpl; [|done].
  case_decide; [apply deref_not_Fatal|done].
Qed.

Lemma signature_not_Fatal instance tags msg : signature instance tags <> Fatal msg.
Proof.
  apply for_range_not_Fatal. intros key t msg'. unfold signature_body.
  pose proof (getTag_not_Fatal instance t) as Hg.
  destruct (getTag instance t) as [v| |m0]; simpl; [done..|]. by destruct (Hg m0).
Qed.

Lemma new_labels_not_Fatal instance tags msg : new_labels instance tags <> Fatal msg.
Proof.
  apply for_range_not_Fatal. intros labels t msg'. unfold labels_body.
  pose proof (getTag_not_Fatal instance t) as Hg.
  destruct (getTag instance t) as [v| |m0]; simpl; [by case_decide|done|].
  by destruct (Hg m0).
Qed.

Lemma groupByTags_body_not_Fatal port tags m instance msg :
  groupByTags_body port tags m instance <> Fatal msg.
Proof.
  unfold groupByTags_body.
  destruct (ec2.State instance) as [st|]; simpl; [|done].
  destruct (ec2.Code st) as [code|]; simpl; [|done].
  case_decide; [done|].
  pose proof (signature_not_Fatal instance tags) as Hs.
  destruct (signature instance tags) as [key| |m0]; simpl;
    [|done|by destruct (Hs m0)].
  pose proof (new_labels_not_Fatal instance tags) as Hl.
  destruct (m !! key); simpl.
  - by destruct (ec2.PrivateIpAddress instance).
  - destruct (new_labels instance tags) as [labels| |m0]; simpl;
      [|done|by destruct (Hl m0)].
    by destruct (ec2.PrivateIpAddress instance).
Qed.

Lemma groupByTags_not_Fatal port instances tags msg :
  groupByTags port instances tags <> Fatal msg.
Proof. apply for_range_not_Fatal. intros. apply groupByTags_body_not_Fatal. Qed.

Lemma groupByTags_body_unusable port tags m instance :
  unusable instance -> groupByTags_body port tags m instance = Panic.
Proof.
  intros [Hnone|[Hrun Hip]].
  - unfold state_code in Hnone. unfold groupByTags_body.
    destruct (ec2.State instance) as [st|]; simpl in *; [|done].
    by rewrite Hnone.
  - pose proof (groupByTags_body_not_Fatal port tags m instance) as Hfatal.
    rewrite body_running in Hfatal |- * by done. rewrite Hip in Hfatal |- *.
    destruct (signature instance tags) as [key| |m0]; simpl in *; [|done|].
    + destruct (m !! key); simpl in *; [done|].
      destruct (new_labels instance tags) as [labels| |m1]; simpl in *; [done..|].
      by destruct (Hfatal m1).
    + by destruct (Hfatal m0).
Qed.

(** One record without a state code, or running without a private address,
    makes the whole run panic, wherever it stands among the instances and
    whatever the others are: no group is returned at all. *)
Theorem groupByTags_unusable_record_panics (port : Z) (tags : list string)
    (instances : list ec2.Instance) :
  Exists unusable instances -> groupByTags port instances tags = Panic.
Proof.
  intros Hbad. apply for_range_Panic.
  - intros. apply groupByTags_body_not_Fatal.
  - eapply Exists_impl; [done|]. intros instance Hi m.
    by apply groupByTags_body_unusable.
Qed.

Lemma groupByTags_unusable_record_panics_witness :
  Exists unusable (sample_fleet ++ [no_state]) /\
  Exists unusable (no_address :: sample_fleet) /\
  groupByTags 80 (sample_fleet ++ [no_state]) ["Name"] = Panic /\
  groupByTags 80 (no_address :: sample_fleet) ["Name"] = Panic.
Proof.
  assert (Exists unusable (sample_fleet ++ [no_state])) as H1.
  { apply Exists_app. right. apply Exists_cons_hd. by left. }
  assert (Exists unusable (no_address :: sample_fleet)) as H2.
  { apply Exists_cons_hd. by right. }
  split_and!; [exact H1|exact H2|..].
  - exact (groupByTags_unusable_record_panics 80 ["Name"] _ H1).
  - exact (groupByTags_unusable_record_panics 80 ["Name"] _ H2).
Defined.

(** ** Shape of the groups *)

(** The map has a group under [k] exactly when some running instance of the
    input has the signature [k], and no group is empty. *)
Theorem groupByTags_groups_nonempty (port : Z) (tags : list string)
    (instances : list ec2.Instance) (m : gmap string TargetGroup) :
  groupByTags port instances tags = Ok m ->
  forall k,
    (is_Some (m !! k) <->
     exists i, i ∈ instances /\ state_code i = Some 16 /\ signature i tags = Ok k) /\
    (forall g, m !! k = Some g -> Targets g <> []).
Proof.
  intros Hrun k. pose proof (groupByTags_groups port tags instances m Hrun k) as Hinv.
  split.
  - split.
    + intros [g Hg]. rewrite Hg in Hinv. destruct Hinv as (first & rest & Hmem & _).
      assert (first ∈ group_members tags k instances) as Hin
        by (rewrite Hmem; apply list_elem_of_here).
      apply list_elem_of_filter in Hin as [[Hcode Hsig] Hin]. eauto.
    + intros (i & Hin & Hcode & Hsig).
      destruct (groupByTags_member port tags instances m i k Hrun Hin Hcode Hsig)
        as (g & _ & Hg & _). by eexists.
  - intros g Hg. rewrite Hg in Hinv.
    destruct Hinv as (first & rest & _ & _ & Htargets).
    intros Hnil. rewrite Hnil in Htargets. by apply Forall2_nil_cons_inv in Htargets.
Qed.

Lemma groupByTags_groups_nonempty_witness :
  groupByTags 80 sample_fleet ["Name"] = Ok web_db /\
  forall k,
    (is_Some (web_db !! k) <->
     exists i, i ∈ sample_fleet /\ state_code i = Some 16 /\
               signature i ["Name"] = Ok k) /\
    (forall g, web_db !! k = Some g -> Targets g <> []).
Proof.
  assert (groupByTags 80 sample_fleet ["Name"] = Ok web_db) as Hrun
    by (vm_compute; reflexivity).
  split; [exact Hrun|].
  exact (groupByTags_groups_nonempty 80 ["Name"] sample_fleet web_db Hrun).
Defined.

(** A label of a group is a selector key with the value, never empty, that
    the tag of that key has on the first running instance of the group's
    signature: no label carries the empty string, and no tag outside the
    selectors becomes a label. *)
Theorem groupByTags_labels (port : Z) (tags : list string)
    (instances : list ec2.Instance) (m : gmap string TargetGroup)
    (k : string) (g : TargetGroup) :
  groupByTags port instances tags = Ok m ->
  m !! k = Some g ->
  exists first rest,
    group_members tags k instances = first :: rest /\
    forall key v,
      Labels g !! key = Some v <->
      key ∈ tags /\ getTag first key = Ok v /\ v <> "".
Proof.
  intros Hrun Hg.
  pose proof (groupByTags_groups port tags instances m Hrun k) as Hinv.
  rewrite Hg in Hinv. destruct Hinv as (first & rest & Hmem & Hlabels & _).
  exists first, rest. split; [done|]. intros key v. by apply new_labels_lookup.
Qed.

Lemma groupByTags_labels_witness :
  let a := mk_instance "i-a" (Some "10.0.0.1") 16
             [("Name", "web"); ("Role", ""); ("Owner", "ops")] in
  let g := {| Targets := ["10.0.0.1:80"]; Labels := {[ "Name" := "web" ]} |} in
  groupByTags 80 [a] ["Name"; "Role"; "Zone"]
  = Ok {[ "|Name=web|Role=|Zone=" := g ]} /\
  exists first rest,
    group_members ["Name"; "Role"; "Zone"] "|Name=web|Role=|Zone=" [a]
    = first :: rest /\
    forall key v,
      Labels g !! key = Some v <->
      key ∈ ["Name"; "Role"; "Zone"] /\ getTag first key = Ok v /\ v <> "".
Proof.
  intros a g.
  assert (groupByTags 80 [a] ["Name"; "Role"; "Zone"]
          = Ok {[ "|Name=web|Role=|Zone=" := g ]}) as Hrun
    by (vm_compute; reflexivity).
  split; [exact Hrun|].
  exact (groupByTags_labels 80 _ [a] _ "|Name=web|Role=|Zone=" g Hrun
           (lookup_singleton_eq _ _)).
Defined.

Lemma group_members_no_selectors k (l : list ec2.Instance) :
  group_members [] k l =
  if decide (k = "") then filter (fun i => state_code i = Some 16) l else [].
Proof.
  unfold group_members. induction l as [|i l IH].
  - by case_decide.
  - rewrite filter_cons, IH.
    change (signature i []) with (Ok "" : result string).
    destruct (decide (k = "")) as [->|Hne].
    + rewrite filter_cons.
      destruct (decide (state_code i = Some 16)) as [Hi|Hi].
      * by rewrite decide_True.
      * by rewrite decide_False by (by intros [? _]).
    + by rewrite decide_False by (intros [_ [= ?]]; by apply Hne).
Qed.

(** Without selectors there is one group at most: every running instance
    goes to the group stored under the empty signature, which has no
    label. *)
Theorem groupByTags_no_selectors (port : Z) (instances : list ec2.Instance)
    (m : gmap string TargetGroup) :
  groupByTags port instances [] = Ok m ->
  (forall k, k <> "" -> m !! k = None) /\
  match m !! "" with
  | None => filter (fun i => state_code i = Some 16) instances = []
  | Some g =>
      Labels g = ∅ /\
      Forall2 (is_target_of port) (Targets g)
              (filter (fun i => state_code i = Some 16) instances)
  end.
Proof.
  intros Hrun. pose proof (groupByTags_groups port [] instances m Hrun) as Hinv.
  split.
  - intros k Hne. specialize (Hinv k).
    rewrite group_members_no_selectors, decide_False in Hinv by done.
    destruct (m !! k); [|done]. by destruct Hinv as (? & ? & ? & _).
  - specialize (Hinv ""). rewrite group_members_no_selectors in Hinv.
    rewrite decide_True in Hinv by done.
    destruct (m !! "") as [g|]; [|done].
    destruct Hinv as (first & rest & -> & Hlabels & Htargets).
    split; [|done]. by injection Hlabels.
Qed.

Lemma groupByTags_no_selectors_witness :
  let m : gmap string TargetGroup :=
    {[ "" := {| Targets := ["10.0.0.1:80"; "10.0.0.4:80"; "10.0.0.5:80"];
                Labels := ∅ |} ]} in
  groupByTags 80 sample_fleet [] = Ok m /\
  (forall k, k <> "" -> m !! k = None) /\
  match m !! "" with
  | None => filter (fun i => state_code i = Some 16) sample_fleet = []
  | Some g =>
      Labels g = ∅ /\
      Forall2 (is_target_of 80) (Targets g)
              (filter (fun i => state_code i = Some 16) sample_fleet)
  end.
Proof.
  intros m.
  assert (groupByTags 80 sample_fleet [] = Ok m) as Hrun
    by (vm_compute; reflexivity).
  split; [exact Hrun|].
  exact (groupByTags_no_selectors 80 sample_fleet m Hrun).
Defined.

(** ** Conservation of targets *)

Lemma total_targets_insert (m : gmap string TargetGroup) k g :
  total_targets (<[k := g]> m) =
  (length (Targets g) + total_targets (delete k m))%nat.
Proof.
  unfold total_targets. rewrite <-(insert_delete_eq m k g).
  rewrite map_fold_insert_L; [done| |apply lookup_delete_eq].
  intros. lia.
Qed.

Lemma total_targets_lookup (m : gmap string TargetGroup) k :
  total_targets m =
  (length (default [] (Targets <$> m !! k)) + total_targets (delete k m))%nat.
Proof.
  destruct (m !! k) as [g|] eqn:Hg; simpl.
  - unfold total_targets. rewrite (map_fold_delete_L _ _ k g m); [done| |done].
    intros. lia.
  - by rewrite delete_id.
Qed.

Lemma total_targets_loop port tags (l : list ec2.Instance) :
  forall m m',
    for_range (groupByTags_body port tags) l m = Ok m' ->
    total_targets m' =
    (total_targets m + length (filter (fun i => state_code i = Some 16%Z) l))%nat.
Proof.
  induction l as [|i l IH]; intros m m' Hloop; simpl in Hloop.
  - injection Hloop as <-. simpl. lia.
  - apply bind_Ok_inv in Hloop as (m1 & Hbody & Hloop).
    rewrite (IH _ _ Hloop), filter_cons. clear IH Hloop.
    apply body_Ok_inv in Hbody
      as [(c & Hc & Hne & ->)|(key & labels & ip & Hrun & _ & _ & _ & ->)].
    + rewrite decide_False by congruence. done.
    + rewrite decide_True by done.
      rewrite total_targets_insert, (total_targets_lookup m key). simpl.
      rewrite length_app. simpl. lia.
Qed.

(** A run that returns has one target entry for each running instance of
    the input: the groups together hold as many targets as there are
    running instances, so none is dropped and none is entered twice. *)
Theorem groupByTags_target_count (port : Z) (tags : list string)
    (instances : list ec2.Instance) (m : gmap string TargetGroup) :
  groupByTags port instances tags = Ok m ->
  total_targets m = length (filter (fun i => state_code i = Some 16) instances).
Proof.
  intros Hrun. rewrite (total_targets_loop port tags instances ∅ m Hrun).
  unfold total_targets. by rewrite map_fold_empty.
Qed.

Lemma groupByTags_target_count_witness :
  groupByTags 80 sample_fleet ["Name"] = Ok web_db /\
  total_targets web_db = 3%nat /\
  total_targets web_db
  = length (filter (fun i => state_code i = Some 16) sample_fleet).
Proof.
  assert (groupByTags 80 sample_fleet ["Name"] = Ok web_db) as Hrun
    by (vm_compute; reflexivity).
  split_and!; [exact Hrun|by vm_compute|].
  exact (groupByTags_target_count 80 ["Name"] sample_fleet web_db Hrun).
Defined.

(** ** Tag lookup *)

Lemma getTag_loop_skip (before rest : list ec2.Tag) key :
  Forall (other_key key) before ->
  getTag_loop (before ++ rest) key = getTag_loop rest key.
Proof.
  induction 1 as [|t before (k & Hk & Hne) _ IH]; simpl; [done|].
  rewrite Hk. simpl. by rewrite decide_False.
Qed.

(** [getTag] returns the value of the first tag that has the key, and does
    not look further: later tags of the same key, and tags without a key
    behind it, have no effect.  It returns the empty string when no tag
    has the key.  It panics when the tag it finds has no value, and when it
    meets a tag without a key before it finds the key. *)
Theorem getTag_first_match (instance : ec2.Instance) (key : string) :
  (forall before t after,
      ec2.Tags instance = before ++ t :: after ->
      Forall (other_key key) before ->
      ec2.Key t = Some key ->
      getTag instance key = deref (ec2.Value t)) /\
  (Forall (other_key key) (ec2.Tags instance) -> getTag instance key = Ok "") /\
  (forall before t after,
      ec2.Tags instance = before ++ t :: after ->
      Forall (other_key key) before ->
      ec2.Key t = None ->
      getTag instance key = Panic).
Proof.
  unfold getTag. split_and!.
  - intros before t after -> Hbefore Hkey.
    rewrite getTag_loop_skip by done. simpl. rewrite Hkey. simpl.
    by rewrite decide_True.
  - intros Hall. rewrite <-(app_nil_r (ec2.Tags instance)).
    by rewrite getTag_loop_skip.
  - intros before t after -> Hbefore Hkey.
    rewrite getTag_loop_skip by done. simpl. by rewrite Hkey.
Qed.

Lemma getTag_first_match_witness :
  getTag twice_tagged "Name" = Ok "first" /\
  getTag (with_Tags twice_tagged (take 1 (ec2.Tags twice_tagged))) "Zone" = Ok "" /\
  getTag twice_tagged "Zone" = Panic.
Proof.
  split_and!.
  - destruct (getTag_first_match twice_tagged "Name") as [Hfirst _].
    rewrite (Hfirst [ {| ec2.Key := Some "Role"; ec2.Value := Some "api" |} ]
               {| ec2.Key := Some "Name"; ec2.Value := Some "first" |}
               [ {| ec2.Key := Some "Name"; ec2.Value := Some "second" |};
                 {| ec2.Key := None; ec2.Value := None |} ]);
      [reflexivity..| |reflexivity].
    apply Forall_cons_2; [|apply Forall_nil_2]. by exists "Role".
  - destruct (getTag_first_match
                (with_Tags twice_tagged (take 1 (ec2.Tags twice_tagged))) "Zone")
      as (_ & Hmissing & _).
    apply Hmissing. apply Forall_cons_2; [|apply Forall_nil_2]. by exists "Role".
  - destruct (getTag_first_match twice_tagged "Zone") as (_ & _ & Hnil).
    apply (Hnil (take 3 (ec2.Tags twice_tagged))
             {| ec2.Key := None; ec2.Value := None |} []); [reflexivity| |done].
    apply Forall_cons_2; [by exists "Role"|].
    apply Forall_cons_2; [by exists "Name"|].
    apply Forall_cons_2; [by exists "Name"|]. apply Forall_nil_2.
Defined.

(** ** Signature *)

(** The signature of an instance is the concatenation, in the order of the
    selectors, of a bar, the key, an equals sign and the value that [getTag]
    finds for the key; it exists when [getTag] returns for every selector. *)
Theorem signature_closed_form (instance : ec2.Instance) (tags : list string)
    (k : string) :
  signature instance tags = Ok k <->
  exists values,
    Forall2 (fun key v => getTag instance key = Ok v) tags values /\
    k = foldr String.app ""
          (zip_with (fun key v => "|" +:+ key +:+ "=" +:+ v) tags values).
Proof.
  revert k. induction tags as [|t ts IH]; intros k.
  - split.
    + intros [= <-]. exists []. by split; [constructor|].
    + intros (values & Hv & ->). by apply Forall2_nil_inv_l in Hv as ->.
  - rewrite signature_cons. split.
    + intros Hk. apply bind_Ok_inv in Hk as (v & Hv & Hk).
      apply bind_Ok_inv in Hk as (s & Hs & [= <-]).
      apply IH in Hs as (values & Hvalues & ->).
      exists (v :: values). split; [by constructor|].
      simpl. by rewrite !string_app_assoc.
    + intros (values & Hvalues & ->).
      apply Forall2_cons_inv_l in Hvalues as (v & values' & Hv & Hvalues & ->).
      rewrite Hv. simpl.
      assert (signature instance ts
              = Ok (foldr String.app ""
                      (zip_with (fun key v => "|" +:+ key +:+ "=" +:+ v) ts values')))
        as -> by (apply IH; eauto).
      simpl. by rewrite !string_app_assoc.
Qed.

Lemma signature_closed_form_witness :
  let i := mk_instance "i-a" (Some "10.0.0.1") 16
             [("Role", "api"); ("Name", "first")] in
  signature i ["Name"; "Zone"; "Role"] = Ok "|Name=first|Zone=|Role=api" /\
  exists values,
    Forall2 (fun key v => getTag i key = Ok v) ["Name"; "Zone"; "Role"] values /\
    "|Name=first|Zone=|Role=api"
    = foldr String.app ""
        (zip_with (fun key v => "|" +:+ key +:+ "=" +:+ v)
                  ["Name"; "Zone"; "Role"] values).
Proof.
  intros i.
  assert (signature i ["Name"; "Zone"; "Role"]
          = Ok "|Name=first|Zone=|Role=api") as Hsig by (vm_compute; reflexivity).
  split; [exact Hsig|].
  exact (proj1 (signature_closed_form i _ _) Hsig).
Defined.

(** ** Keys of a selector sequence *)

Lemma Keys_loop_acc (tags : Tags) seen keys :
  snd (foldl Keys_body (seen, keys) tags)
  = keys ++ snd (foldl Keys_body (seen, []) tags).
Proof.
  revert seen keys. induction tags as [|t ts IH]; intros seen keys; simpl.
  - by rewrite app_nil_r.
  - destruct (negb (default false (seen !! Key t))); [|apply IH].
    rewrite (IH _ (keys ++ [Key t])), (IH _ [Key t]). by rewrite <-app_assoc.
Qed.

Lemma Keys_loop_seen (tags : Tags) seen k :
  snd (foldl Keys_body (<[k := true]> seen, []) tags)
  = filter (fun k' => k' <> k) (snd (foldl Keys_body (seen, []) tags)).
Proof.
  revert seen. induction tags as [|t ts IH]; intros seen; simpl; [done|].
  destruct (decide (Key t = k)) as [Hk|Hk].
  - rewrite Hk, lookup_insert_eq. simpl.
    destruct (default false (seen !! k)); simpl; [apply IH|].
    rewrite (Keys_loop_acc ts _ [k]), filter_app, filter_cons, decide_False
      by (by intros ?).
    rewrite filter_nil, IH. simpl.
    rewrite list_filter_filter. apply list_filter_iff. tauto.
  - rewrite lookup_insert_ne by done.
    destruct (default false (seen !! Key t)); simpl; [apply IH|].
    rewrite insert_insert_ne by done.
    rewrite (Keys_loop_acc ts (<[k:=true]> (<[Key t:=true]> seen)) [Key t]).
    rewrite (Keys_loop_acc ts (<[Key t:=true]> seen) [Key t]).
    rewrite filter_app, filter_cons, decide_True, filter_nil by done.
    by rewrite IH.
Qed.

Lemma Keys_cons (t : Tag) (ts : Tags) :
  Keys (t :: ts) = Key t :: filter (fun k => k <> Key t) (Keys ts).
Proof.
  unfold Keys. simpl. rewrite lookup_empty. simpl.
  by rewrite (Keys_loop_acc ts _ [Key t]), Keys_loop_seen.
Qed.

Lemma filter_all {A} (P : A -> Prop) `{!forall x, Decision (P x)} (l : list A) :
  Forall P l -> filter P l = l.
Proof.
  induction 1 as [|x l Hx _ IH]; [done|].
  by rewrite filter_cons, decide_True, IH.
Qed.

(** [Keys] keeps the first occurrence of every selector key and drops the
    later ones: the result has each key of the selectors once, in the order
    in which the keys first occur. *)
Theorem Keys_first_occurrence (tags : Tags) :
  NoDup (Keys tags) /\
  (forall k, k ∈ Keys tags <-> k ∈ map Key tags) /\
  (forall t ts, tags = t :: ts ->
                Keys tags = Key t :: filter (fun k => k <> Key t) (Keys ts)) /\
  (NoDup (map Key tags) -> Keys tags = map Key tags).
Proof.
  split_and!.
  - induction tags as [|t ts IH]; [constructor|].
    rewrite Keys_cons. apply NoDup_cons. split; [|by apply NoDup_filter].
    rewrite list_elem_of_filter. by intros [? _].
  - intros k. induction tags as [|t ts IH]; [done|].
    rewrite Keys_cons. simpl. rewrite !elem_of_cons, list_elem_of_filter, IH.
    destruct (decide (k = Key t)); tauto.
  - intros t ts ->. apply Keys_cons.
  - induction tags as [|t ts IH]; [done|]. simpl. intros [Hnotin Hnd]%NoDup_cons.
    rewrite Keys_cons, IH by done. f_equal.
    apply filter_all, Forall_forall. by intros k Hk ->.
Qed.

Lemma Keys_first_occurrence_witness :
  let tags := [ {| Key := "Application"; FilterName := "tag-key";
                   FilterValue := "Application" |};
                {| Key := "Environment"; FilterName := "tag:Environment";
                   FilterValue := "Production" |};
                {| Key := "Application"; FilterName := "tag:Application";
                   FilterValue := "api" |} ] in
  Keys tags = ["Application"; "Environment"] /\
  NoDup (Keys tags) /\
  (forall k, k ∈ Keys tags <-> k ∈ map Key tags).
Proof.
  intros tags. destruct (Keys_first_occurrence tags) as (Hnd & Hin & _).
  split_and!; [by vm_compute|exact Hnd|exact Hin].
Defined.

(** ** Reservations *)

(** [flattenReservations] returns the instances of all the reservations, in
    the order of the reservations and, within one, of its instances; a
    reservation without instances adds nothing. *)
Theorem flattenReservations_concat (reservations : list ec2.Reservation) :
  flattenReservations reservations = concat (map ec2.Instances reservations) /\
  (forall i, i ∈ flattenReservations reservations <->
             exists r, r ∈ reservations /\ i ∈ ec2.Instances r) /\
  (forall more, flattenReservations (reservations ++ more)
                = flattenReservations reservations ++ flattenReservations more).
Proof.
  assert (forall rs acc,
             foldl (fun instances r => instances ++ ec2.Instances r) acc rs
             = acc ++ concat (map ec2.Instances rs)) as Hfold.
  { induction rs as [|r rs IH]; intros acc; simpl.
    - by rewrite app_nil_r.
    - by rewrite IH, <-app_assoc. }
  assert (forall rs, flattenReservations rs = concat (map ec2.Instances rs)) as Heq
    by (intros rs; unfold flattenReservations; by rewrite Hfold).
  split_and!; [done| |].
  - intros i. rewrite Heq, list_elem_of_In, in_concat. split.
    + intros (l & Hl & Hi). apply list_elem_of_In in Hl, Hi.
      apply list_elem_of_fmap in Hl as (r & -> & Hr). eauto.
    + intros (r & Hr & Hi). exists (ec2.Instances r).
      split; apply list_elem_of_In; [|done]. apply list_elem_of_fmap. eauto.
  - intros more. by rewrite !Heq, map_app, concat_app.
Qed.

(** ** Records with nil fields *)

Lemma filterHealthyInstances_body_not_Fatal healthy instance msg :
  filterHealthyInstances_body healthy instance <> Fatal msg.
Proof.
  unfold filterHealthyInstances_body.
  destruct (elb.State instance); simpl; [by case_decide|done].
Qed.

(** One candidate without a health status makes the health filter panic,
    whatever the status of the others: no identifier is returned. *)
Theorem filterHealthyInstances_nil_state (output : elb.DescribeInstanceHealthOutput) :
  Exists (fun s => elb.State s = None) (elb.InstanceStates output) ->
  filterHealthyInstances output = Panic.
Proof.
  intros Hbad. apply for_range_Panic.
  - intros. apply filterHealthyInstances_body_not_Fatal.
  - eapply Exists_impl; [done|]. intros s Hs healthy.
    unfold filterHealthyInstances_body. by rewrite Hs.
Qed.

Lemma filterHealthyInstances_nil_state_witness :
  let output :=
    {| elb.InstanceStates :=
         elb.InstanceStates sample_health
         ++ [ {| elb.InstanceId' := Some "i-6"; elb.State := None |} ] |} in
  Exists (fun s => elb.State s = None) (elb.InstanceStates output) /\
  filterHealthyInstances output = Panic.
Proof.
  intros output.
  assert (Exists (fun s => elb.State s = None) (elb.InstanceStates output)) as Hbad.
  { apply Exists_app. right. by apply Exists_cons_hd. }
  split; [exact Hbad|]. exact (filterHealthyInstances_nil_state output Hbad).
Defined.

Lemma allTagKeys_tag_not_Fatal tagSet t msg : allTagKeys_tag tagSet t <> Fatal msg.
Proof. unfold allTagKeys_tag. by destruct (ec2.Key t). Qed.

Lemma allTagKeys_instance_not_Fatal tagSet instance msg :
  allTagKeys_instance tagSet instance <> Fatal msg.
Proof. apply for_range_not_Fatal. intros. apply allTagKeys_tag_not_Fatal. Qed.

(** The fallback reads the tags of every instance, running or not: one tag
    without a key, on any instance, makes it panic. *)
Theorem allTagKeys_nil_key (order : gmap string () -> list string)
    (instances : list ec2.Instance) :
  Exists (fun i => Exists (fun t => ec2.Key t = None) (ec2.Tags i)) instances ->
  allTagKeys order instances = Panic.
Proof.
  intros Hbad. unfold allTagKeys.
  rewrite (for_range_Panic allTagKeys_instance instances ∅); [done| |].
  - intros. apply allTagKeys_instance_not_Fatal.
  - eapply Exists_impl; [done|]. intros i Hi tagSet.
    apply for_range_Panic; [intros; apply allTagKeys_tag_not_Fatal|].
    simpl in Hi. eapply Exists_impl; [exact Hi|]. intros t Ht tagSet'.
    unfold allTagKeys_tag. by rewrite Ht.
Qed.

Lemma allTagKeys_nil_key_witness :
  let stopped := with_Tags (mk_instance "i-s" None 80 []) (ec2.Tags twice_tagged) in
  Exists (fun i => Exists (fun t => ec2.Key t = None) (ec2.Tags i))
         (sample_fleet ++ [stopped]) /\
  allTagKeys ascending_range (sample_fleet ++ [stopped]) = Panic /\
  exists m, groupByTags 80 (sample_fleet ++ [stopped]) ["Name"] = Ok m.
Proof.
  intros stopped.
  assert (Exists (fun i => Exists (fun t => ec2.Key t = None) (ec2.Tags i))
                 (sample_fleet ++ [stopped])) as Hbad.
  { apply Exists_app. right. apply Exists_cons_hd.
    do 3 apply Exists_cons_tl. by apply Exists_cons_hd. }
  split_and!; [exact Hbad|exact (allTagKeys_nil_key _ _ Hbad)|].
  eexists. vm_compute. reflexivity.
Defined.

(** ** Tag filter spec: bounds and round trip *)

Lemma parseTags_unfold tagsRaw :
  parseTags tagsRaw =
  if decide (tagsRaw = "") then Ok []
  else for_range_from parseTags_body 0 (strings_Split tagsRaw ",")
         (replicate (length (strings_Split tagsRaw ",")) zero_Tag).
Proof.
  destruct (parseTags_guard tagsRaw) as (f0 & Hf0 & Hguard). cbv zeta in *.
  unfold parseTags. rewrite Hf0. simpl.
  destruct (decide (tagsRaw = "")) as [He|He].
  - by rewrite decide_True by (by apply Hguard).
  - by rewrite decide_False by (by rewrite Hguard).
Qed.

Lemma parseTags_body_not_Panic (tags : Tags) i t :
  parseTags_body tags i t <> Panic.
Proof.
  unfold parseTags_body.
  by destruct (strings_Split t "=") as [|p0 [|p1 [|p2 parts]]].
Qed.

Lemma parseTags_loop_not_Panic fields : forall i (tags : Tags),
  for_range_from parseTags_body i fields tags <> Panic.
Proof.
  induction fields as [|t fields IH]; intros i tags; simpl; [done|].
  pose proof (parseTags_body_not_Panic tags i t) as Hbody.
  destruct (parseTags_body tags i t); simpl; [apply IH|done..].
Qed.

Lemma parseTags_not_Panic tagsRaw : parseTags tagsRaw <> Panic.
Proof.
  rewrite parseTags_unfold. case_decide; [done|]. apply parseTags_loop_not_Panic.
Qed.

(** [parseTags] indexes the fields and the parts of a field within bounds:
    whatever the input, it returns selectors or exits with the message for
    an unrecognized filter, and never panics. *)
Theorem parseTags_no_panic (tagsRaw : string) :
  parseTags tagsRaw <> Panic /\
  forall msg, parseTags tagsRaw = Fatal msg ->
    exists bad, bad ∈ strings_Split tagsRaw "," /\
                msg = "Unrecognized tag filter " +:+ bad.
Proof.
  split; [apply parseTags_not_Panic|].
  rewrite parseTags_unfold. case_decide; [done|].
  intros msg Hfatal.
  destruct (decide (Exists (fun t => (2 <= count_byte "=" t)%nat)
                           (strings_Split tagsRaw ","))) as [Hbad|Hok].
  - destruct (parseTags_loop_fatal _ 0
                (replicate (length (strings_Split tagsRaw ",")) zero_Tag) Hbad)
      as (bad & Hin & _ & Hloop).
    rewrite Hloop in Hfatal. injection Hfatal as <-. eauto.
  - rewrite parseTags_loop_selectors in Hfatal; [done| |by rewrite length_replicate].
    apply Forall_forall. intros t Ht.
    destruct (decide (count_byte "=" t <= 1)%nat) as [|Hgt]; [done|].
    destruct Hok. apply Exists_exists. exists t. split; [done|lia].
Qed.

Lemma strings_Split_join s c :
  String.concat (String c "") (strings_Split s c) = s.
Proof.
  induction s as [|a s IH]; [done|]. simpl.
  pose proof (strings_Split_length s c) as Hlen.
  destruct (strings_Split s c) as [|field fields]; [done|].
  case_decide as Ha.
  - subst a. exact (f_equal (String c) IH).
  - simpl in *. destruct fields; exact (f_equal (String a) IH).
Qed.

Lemma render_selector_of t :
  (count_byte "=" t <= 1)%nat -> render_Tag (selector_of t) = t.
Proof.
  intros Hcount. unfold selector_of, render_Tag.
  pose proof (strings_Split_length t "=") as Hlen.
  pose proof (strings_Split_join t "=") as Hjoin.
  destruct (strings_Split t "=") as [|p0 [|p1 [|p2 parts]]];
    simpl in *; [lia|done|exact Hjoin|lia].
Qed.

(** A tag filter spec that parses can be read back from its selectors: the
    fields, with their [=] and their order, are all kept, so two specs that
    parse to the same selectors are the same string. *)
Theorem parseTags_round_trip (tagsRaw : string) (tags : Tags) :
  parseTags tagsRaw = Ok tags -> render_Tags tags = tagsRaw.
Proof.
  rewrite parseTags_unfold. case_decide as He; [by intros [= <-]|].
  intros Hparse.
  assert (Forall (fun t => (count_byte "=" t <= 1)%nat)
                 (strings_Split tagsRaw ",")) as Hok.
  { apply Forall_forall. intros t Ht.
    destruct (decide (count_byte "=" t <= 1)%nat) as [|Hgt]; [done|].
    destruct (parseTags_loop_fatal (strings_Split tagsRaw ",") 0
                (replicate (length (strings_Split tagsRaw ",")) zero_Tag))
      as (bad & _ & _ & Hloop).
    { apply Exists_exists. exists t. split; [done|lia]. }
    by rewrite Hloop in Hparse. }
  rewrite parseTags_loop_selectors in Hparse; [|done|by rewrite length_replicate].
  injection Hparse as <-. unfold render_Tags. simpl.
  rewrite <-(strings_Split_join tagsRaw ",") at 2. f_equal.
  rewrite map_map. clear He.
  induction Hok as [|t fields Ht _ IH]; [done|]. simpl.
  by rewrite render_selector_of, IH.
Qed.

Lemma parseTags_round_trip_witness :
  let tags := [ {| Key := "Application"; FilterName := "tag-key";
                   FilterValue := "Application" |};
                {| Key := "Envionment"; FilterName := "tag:Envionment";
                   FilterValue := "Production" |};
                {| Key := ""; FilterName := "tag-key"; FilterValue := "" |};
                {| Key := ""; FilterName := "tag-key"; FilterValue := "" |} ] in
  parseTags "Application,Envionment=Production,," = Ok tags /\
  render_Tags tags = "Application,Envionment=Production,,".
Proof.
  intros tags.
  assert (parseTags "Application,Envionment=Production,," = Ok tags) as Hparse
    by (vm_compute; reflexivity).
  split; [exact Hparse|].
  exact (parseTags_round_trip _ tags Hparse).
Defined.

(** ** Atomic publisher: what else it touches *)

(** [atomicWriteFile] changes no path other than the destination and the
    temporary file.  With a suffix that is not empty, the temporary file is
    gone after a successful run, and is left behind with the whole document
    when the write succeeded and the rename failed. *)
Theorem atomicWriteFile_frame (os : OS) (filename data tmpSuffix : string)
    (w : World) :
  OS_contract os ->
  let tmp := filename +:+ tmpSuffix in
  let '(w', err) := atomicWriteFile os filename data tmpSuffix w in
  (forall p, p <> filename -> p <> tmp -> files w' !! p = files w !! p) /\
  (tmpSuffix <> "" -> err = None -> files w' !! tmp = None) /\
  (tmpSuffix <> "" -> (os_WriteFile os (files w) tmp data).2 = None ->
   err <> None -> files w' !! tmp = Some data).
Proof.
  intros Hos tmp.
  unfold atomicWriteFile, ioutil_WriteFile, os_Rename', record. simpl. fold tmp.
  pose proof (WriteFile_frame os Hos (files w) tmp data) as Hframe.
  pose proof (WriteFile_ok os Hos (files w) tmp data) as Hok.
  destruct (os_WriteFile os (files w) tmp data) as [fs1 [e1|]] eqn:Hw; simpl in *.
  { split_and!; [|done..]. intros p _ Hp. by apply Hframe. }
  pose proof (Rename_err os Hos fs1 tmp filename) as Herr.
  pose proof (Rename_ok os Hos fs1 tmp filename) as Hren.
  destruct (os_Rename os fs1 tmp filename) as [fs2 [e2|]] eqn:Hr; simpl in *.
  - rewrite Herr by done. split_and!; [|done|].
    + intros p _ Hp. by apply Hframe.
    + intros _ _ _. by apply Hok.
  - destruct (Hren eq_refl) as (content & _ & ->). split_and!; [| |done].
    + intros p Hp Hp'. rewrite lookup_insert_ne, lookup_delete_ne by done.
      by apply Hframe.
    + intros Hne _. rewrite lookup_insert_ne by (symmetry; by apply string_app_ne).
      apply lookup_delete_eq.
Qed.

Lemma atomicWriteFile_frame_witness :
  OS_contract (sim_OS false false) /\
  (let '(w', err) :=
     atomicWriteFile (sim_OS false false) "tgroups/target_groups.json" "[{}]"
       ".new" {| files := {[ "tgroups/target_groups.json" := "[]";
                             "prometheus.yml" := "scrape_configs" ]};
                 stdout := ""; calls := [] |} in
   err = None /\
   files w' !! "prometheus.yml" = Some "scrape_configs" /\
   files w' !! "tgroups/target_groups.json.new" = None).
Proof.
  split; [apply sim_OS_contract|].
  pose proof (atomicWriteFile_frame (sim_OS false false)
                "tgroups/target_groups.json" "[{}]" ".new"
                {| files := {[ "tgroups/target_groups.json" := "[]";
                               "prometheus.yml" := "scrape_configs" ]};
                   stdout := ""; calls := [] |} (sim_OS_contract false false))
    as Hspec.
  cbv zeta in Hspec.
  destruct (atomicWriteFile _ _ _ _ _) as [w' err] eqn:Hrun.
  assert (err = None) as Herr by (vm_compute in Hrun; by injection Hrun as _ <-).
  destruct Hspec as (Hframe & Hgone & _).
  split_and!; [exact Herr| |].
  - rewrite Hframe by done. reflexivity.
  - apply Hgone; [done|exact Herr].
Defined.

(** ** The runs of the program *)

Lemma fmt_Println_calls os msg w :
  calls (fmt_Println os msg w) = calls w ++ [SysStdoutWrite (msg +:+ json.newline)].
Proof.
  unfold fmt_Println, os_Stdout_Write. by destruct (os_StdoutWrite os _ _).
Qed.


Lemma new_calls_app w w' evs : calls w' = calls w ++ evs -> new_calls w w' = evs.
Proof. intros Hc. unfold new_calls. by rewrite Hc, drop_app_length. Qed.

(** The publication adds calls to the operating system only, and leaves
    the files alone when the destination is standard output. *)
Lemma main_publish_effect os dest b w :
  exists evs,
    calls (main_publish os dest b w).1 = calls w ++ evs /\
    Forall (fun e => ~ is_net_call e) evs /\
    (dest = "-" -> files (main_publish os dest b w).1 = files w).
Proof.
  unfold main_publish. destruct (decide (dest = "-")) as [->|Hne].
  - unfold os_Stdout_Write. destruct (os_StdoutWrite os _ _) as [out [e|]]; simpl;
      (exists [SysStdoutWrite b]; split_and!; [done| |done]);
      (apply Forall_cons_2; [by intros []|apply Forall_nil_2]).
  - unfold atomicWriteFile, ioutil_WriteFile, os_Rename'.
    destruct (os_WriteFile os _ _ _) as [fs1 [e1|]]; simpl.
    { exists [SysWriteFile (dest +:+ ".new") b]. split_and!; [done| |done].
      apply Forall_cons_2; [by intros []|apply Forall_nil_2]. }
    destruct (os_Rename os _ _ _) as [fs2 [e2|]]; simpl;
      (exists [SysWriteFile (dest +:+ ".new") b; SysRename (dest +:+ ".new") dest];
       split_and!; [by rewrite <-app_assoc| |done]);
      (apply Forall_cons_2; [by intros []|];
       apply Forall_cons_2; [by intros []|apply Forall_nil_2]).
Qed.

Lemma main_document_not_Fatal quote order_tags order_groups g instances msg :
  main_document quote order_tags order_groups g instances <> Fatal msg.
Proof.
  unfold main_document, main_tagKeys.
  assert (forall msg, allTagKeys order_tags instances <> Fatal msg) as Hall.
  { intros msg'. unfold allTagKeys.
    pose proof (for_range_not_Fatal allTagKeys_instance instances ∅) as Hf.
    destruct (for_range allTagKeys_instance instances ∅) as [tagSet| |m0]; [done..|].
    exfalso. apply (Hf m0); [|done]. intros. apply allTagKeys_instance_not_Fatal. }
  assert (forall tagKeys msg,
             (groupByTags (port g) instances tagKeys
              ≫= fun targetGroups =>
                   Ok (marshalTargetGroups quote order_groups targetGroups))
             <> Fatal msg) as Hgroup.
  { intros tagKeys msg'.
    pose proof (groupByTags_not_Fatal (port g) instances tagKeys) as Hf.
    destruct (groupByTags (port g) instances tagKeys) as [m| |m0]; [done..|].
    by destruct (Hf m0). }
  case_decide.
  - destruct (allTagKeys order_tags instances) as [tagKeys| |m0];
      simpl; [apply Hgroup|done|by destruct (Hall m0)].
  - simpl. apply Hgroup.
Qed.

Lemma main_core_effect quote os order_tags order_groups g instances w :
  let run := main_core quote os order_tags order_groups g instances w in
  (exists evs, calls run.1 = calls w ++ evs /\ Forall (fun e => ~ is_net_call e) evs) /\
  (dest g = "-" -> files run.1 = files w) /\
  (forall msg, run.2 = Fatal msg ->
     exists b, main_publish os (dest g) b w = (run.1, Fatal msg)).
Proof.
  unfold main_core.
  pose proof (main_document_not_Fatal quote order_tags order_groups g instances) as Hf.
  destruct (main_document quote order_tags order_groups g instances) as [b| |m0];
    simpl.
  - destruct (main_publish_effect os (dest g) b w) as (evs & Hc & Hnet & Hfiles).
    split_and!; [by eexists|done|].
    intros msg Hmsg. exists b.
    destruct (main_publish os (dest g) b w) as [w' r]. simpl in *. by subst.
  - split_and!; [|done..]. exists []. by rewrite app_nil_r.
  - by destruct (Hf m0).
Qed.

(** [main] ends in one of the ways that [main_ends] lists. *)
Lemma main_ends_intro quote aws os order_tags order_groups parsed w :
  let run := main quote aws os order_tags order_groups parsed w in
  main_ends quote aws os order_tags order_groups parsed w run.1 run.2.
Proof.
  unfold main.
  destruct (initFlags parsed) as [g| |msg] eqn:Hinit; simpl.
  2:{ unfold initFlags in Hinit.
      pose proof (parseTags_not_Panic (flag_tags parsed)) as Hp.
      by destruct (parseTags (flag_tags parsed)). }
  2:{ by apply ends_flags_fatal. }
  destruct (session_NewSession aws 0) as [err|] eqn:Hs0; simpl.
  { by eapply ends_session. }
  destruct (elb_DescribeLoadBalancers aws (region g) [elbName g])
    as [[|description descriptions]|err] eqn:Hlb; simpl.
  { by eapply ends_no_description. }
  2:{ by eapply ends_balancers_error. }
  eapply ends_health; [done..|]. rewrite foldl_snoc_copy. simpl.
  destruct (elb_DescribeInstanceHealth aws (region g) (elbName g)
              (elb.Instances description)) as [respHealth|err] eqn:Hh; simpl.
  2:{ by apply ends_health_error. }
  pose proof (for_range_not_Fatal filterHealthyInstances_body
                (elb.InstanceStates respHealth) []) as Hf.
  destruct (filterHealthyInstances respHealth) as [healthyInstances| |m0] eqn:Hfilter;
    simpl.
  2:{ by eapply ends_health_panic. }
  2:{ destruct (Hf m0); [|done]. intros. apply filterHealthyInstances_body_not_Fatal. }
  destruct (session_NewSession aws 1) as [err|] eqn:Hs1; simpl.
  { by eapply ends_session_again. }
  destruct (ec2_DescribeInstances aws "us-east-1" healthyInstances)
    as [reservations|err] eqn:Hinv; simpl.
  - by eapply (ends_core _ _ _ _ _ _ _ _ respHealth healthyInstances reservations).
  - by eapply ends_inventory_error.
Qed.



Ltac elem_cases H :=
  repeat (apply elem_of_cons in H as [H|H]; [try discriminate H|]);
  try (by apply elem_of_nil in H).

Ltac calls_shape :=
  rewrite ?fmt_Println_calls; unfold record; simpl;
  rewrite <- ?app_assoc; simpl; reflexivity.

Theorem main_inventory_request (quote : string -> string) (aws : AWS) (os : OS)
    (order_tags : gmap string () -> list string)
    (order_groups : gmap string TargetGroup -> list string)
    (parsed : Flags) (w : World) (r : string) (ids : list (option string)) :
  let run := main quote aws os order_tags order_groups parsed w in
  NetDescribeInstances r ids ∈ new_calls w run.1 ->
  r = "us-east-1" /\
  exists g description respHealth,
    initFlags parsed = Ok g /\
    elb_DescribeInstanceHealth aws (region g) (elbName g)
      (elb.Instances description) = inl respHealth /\
    filterHealthyInstances respHealth = Ok ids /\
    take 3 (new_calls w run.1)
    = [ NetDescribeLoadBalancers (region g) [elbName g];
        NetDescribeInstanceHealth (region g) (elbName g) (elb.Instances description);
        NetDescribeInstances "us-east-1" ids ].
Proof.
  intros run. pose proof (main_ends_intro quote aws os order_tags order_groups
                            parsed w) as Hends.
  fold run in Hends. destruct run as [w' res]. simpl in *.
  intros Hin.
  destruct Hends as [msg Hinit|g err Hinit Hs0|g err Hinit Hs0 Hlb w1
                    |g Hinit Hs0 Hlb w1
                    |g description descriptions res w' Hinit Hs0 Hlb w1 w2 Hends].
  - exfalso. erewrite (new_calls_app w w []) in Hin by (by rewrite app_nil_r).
    elem_cases Hin.
  - exfalso. erewrite new_calls_app in Hin by calls_shape. elem_cases Hin.
  - exfalso. erewrite new_calls_app in Hin by (subst w1; calls_shape). elem_cases Hin.
  - exfalso. erewrite new_calls_app in Hin by (subst w1; calls_shape). elem_cases Hin.
  - destruct Hends as [err Hh|respHealth Hh Hf|respHealth healthy err Hh Hf Hs1
                      |respHealth healthy err Hh Hf Hs1 Hinv w3
                      |respHealth healthy reservations Hh Hf Hs1 Hinv w3 run].
    + exfalso. erewrite new_calls_app in Hin by (subst w1 w2; calls_shape).
      elem_cases Hin.
    + exfalso. erewrite new_calls_app in Hin by (subst w1 w2; calls_shape).
      elem_cases Hin.
    + exfalso. erewrite new_calls_app in Hin by (subst w1 w2; calls_shape).
      elem_cases Hin.
    + erewrite new_calls_app in Hin |- * by (subst w1 w2 w3; calls_shape).
      elem_cases Hin. injection Hin as -> ->.
      split; [done|]. by exists g, description, respHealth.
    + destruct (main_core_effect quote os order_tags order_groups g
                  (flattenReservations reservations) w3)
        as ((evs & Hcalls & Hnet) & _ & _).
      fold run in Hcalls.
      assert (calls run.1 = calls w ++
                [ NetDescribeLoadBalancers (region g) [elbName g];
                  NetDescribeInstanceHealth (region g) (elbName g)
                    (elb.Instances description);
                  NetDescribeInstances "us-east-1" healthy ] ++ evs) as Hshape.
      { rewrite Hcalls. subst w1 w2 w3. unfold record. simpl.
        by rewrite <-!app_assoc. }
      rewrite (new_calls_app _ _ _ Hshape) in Hin |- *.
      apply elem_of_app in Hin as [Hin|Hin].
      * elem_cases Hin. injection Hin as -> ->.
        split; [done|]. by exists g, description, respHealth.
      * exfalso. eapply Forall_forall in Hnet; [|exact Hin]. by apply Hnet.
Qed.

Lemma main_inventory_request_witness :
  let run := main json.quote_plain scenario_aws (sim_OS false false)
               ascending_range ascending_range scenario_flags sample_world in
  NetDescribeInstances "us-east-1" [Some "i-A"; Some "i-B"]
  ∈ new_calls sample_world run.1 /\
  exists g description respHealth,
    initFlags scenario_flags = Ok g /\
    elb_DescribeInstanceHealth scenario_aws (region g) (elbName g)
      (elb.Instances description) = inl respHealth /\
    filterHealthyInstances respHealth = Ok [Some "i-A"; Some "i-B"] /\
    take 3 (new_calls sample_world run.1)
    = [ NetDescribeLoadBalancers (region g) [elbName g];
        NetDescribeInstanceHealth (region g) (elbName g) (elb.Instances description);
        NetDescribeInstances "us-east-1" [Some "i-A"; Some "i-B"] ].
Proof.
  intros run.
  assert (NetDescribeInstances "us-east-1" [Some "i-A"; Some "i-B"]
          ∈ new_calls sample_world run.1) as Hin.
  { vm_compute. do 2 apply list_elem_of_further. apply list_elem_of_here. }
  split; [exact Hin|].
  exact (proj2 (main_inventory_request json.quote_plain scenario_aws
                  (sim_OS false false) ascending_range ascending_range
                  scenario_flags sample_world _ _ Hin)).
Defined.




(** The outcome of [main] depends on the tag filter spec through the keys
    of its selectors only: the values given after [=] are never compared
    with the tags of an instance, and a key given twice counts once. *)
Theorem main_depends_on_keys (quote : string -> string) (aws : AWS) (os : OS)
    (order_tags : gmap string () -> list string)
    (order_groups : gmap string TargetGroup -> list string)
    (parsed : Flags) (tagsRaw : string) (tags1 tags2 : Tags) (w : World) :
  parseTags (flag_tags parsed) = Ok tags1 ->
  parseTags tagsRaw = Ok tags2 ->
  Keys tags1 = Keys tags2 ->
  main quote aws os order_tags order_groups parsed w
  = main quote aws os order_tags order_groups (with_tags parsed tagsRaw) w.
Proof.
  intros H1 H2 Hkeys. unfold main, initFlags, with_tags. simpl.
  rewrite H1, H2. simpl.
  destruct (session_NewSession aws 0); [done|].
  destruct (elb_DescribeLoadBalancers aws _ _) as [descriptions|]; [|done].
  destruct (index descriptions 0) as [description| |]; [|done..].
  destruct (elb_DescribeInstanceHealth aws _ _ _) as [respHealth|]; [|done].
  destruct (filterHealthyInstances respHealth) as [healthyInstances| |]; [|done..].
  destruct (session_NewSession aws 1); [done|].
  destruct (ec2_DescribeInstances aws _ _) as [reservations|]; [|done].
  unfold main_core, main_document, main_tagKeys. simpl. by rewrite Hkeys.
Qed.

Lemma main_depends_on_keys_witness :
  parseTags (flag_tags scenario_flags)
  = Ok [ {| Key := "Environment"; FilterName := "tag-key";
            FilterValue := "Environment" |} ] /\
  parseTags "Environment=prod,Environment"
  = Ok [ {| Key := "Environment"; FilterName := "tag:Environment";
            FilterValue := "prod" |};
         {| Key := "Environment"; FilterName := "tag-key";
            FilterValue := "Environment" |} ] /\
  main json.quote_plain scenario_aws (sim_OS false false)
       ascending_range ascending_range scenario_flags sample_world
  = main json.quote_plain scenario_aws (sim_OS false false)
         ascending_range ascending_range
         (with_tags scenario_flags "Environment=prod,Environment") sample_world /\
  stdout (main json.quote_plain scenario_aws (sim_OS false false)
            ascending_range ascending_range
            (with_tags scenario_flags "Environment=prod,Environment")
            sample_world).1
  = scenario_document.
Proof.
  assert (parseTags (flag_tags scenario_flags)
          = Ok [ {| Key := "Environment"; FilterName := "tag-key";
                    FilterValue := "Environment" |} ]) as H1
    by (vm_compute; reflexivity).
  assert (parseTags "Environment=prod,Environment"
          = Ok [ {| Key := "Environment"; FilterName := "tag:Environment";
                    FilterValue := "prod" |};
                 {| Key := "Environment"; FilterName := "tag-key";
                    FilterValue := "Environment" |} ]) as H2
    by (vm_compute; reflexivity).
  split_and!; [exact H1|exact H2| |].
  - apply (main_depends_on_keys _ _ _ _ _ _ _ _ _ _ H1 H2). vm_compute. reflexivity.
  - vm_compute. reflexivity.
Defined.


(** ** Order of the instances *)

Lemma targets_omap port ts l :
  Forall2 (is_target_of port) ts l -> ts = omap (instance_target port) l.
Proof.
  induction 1 as [|t i ts l Ht _ IH]; [done|]. csimpl.
  unfold is_target_of in Ht. rewrite Ht. by rewrite <-IH.
Qed.

(** Reordering the instances does not change which groups there are.
    Within each group it permutes the targets; the labels become those of
    the running instance of the group's signature that comes first in the
    new order, and they stay what they were when no value of a selected tag
    on a running instance contains a bar. *)
Theorem groupByTags_permutation (port : Z) (tags : list string)
    (instances1 instances2 : list ec2.Instance)
    (m1 m2 : gmap string TargetGroup) :
  instances1 ≡ₚ instances2 ->
  groupByTags port instances1 tags = Ok m1 ->
  groupByTags port instances2 tags = Ok m2 ->
  forall k,
    match m1 !! k, m2 !! k with
    | Some g1, Some g2 =>
        Targets g1 ≡ₚ Targets g2 /\
        (exists first rest,
            group_members tags k instances2 = first :: rest /\
            first ∈ group_members tags k instances1 /\
            new_labels first tags = Ok (Labels g2)) /\
        ((forall i key v, i ∈ instances1 -> state_code i = Some 16 -> key ∈ tags ->
                          getTag i key = Ok v -> has_byte "|" v = false) ->
         Labels g1 = Labels g2)
    | None, None => True
    | _, _ => False
    end.
Proof.
  intros Hperm H1 H2 k.
  pose proof (groupByTags_groups port tags instances1 m1 H1 k) as Hinv1.
  pose proof (groupByTags_groups port tags instances2 m2 H2 k) as Hinv2.
  assert (group_members tags k instances1 ≡ₚ group_members tags k instances2)
    as Hmem by (unfold group_members; by rewrite Hperm).
  destruct (m1 !! k) as [g1|], (m2 !! k) as [g2|].
  - destruct Hinv1 as (f1 & r1 & Hm1 & Hl1 & Ht1).
    destruct Hinv2 as (f2 & r2 & Hm2 & Hl2 & Ht2).
    rewrite <-Hm1 in Ht1. rewrite <-Hm2 in Ht2.
    assert (f1 ∈ group_members tags k instances1) as Hf1
      by (rewrite Hm1; apply list_elem_of_here).
    assert (f2 ∈ group_members tags k instances1) as Hf2
      by (rewrite Hmem, Hm2; apply list_elem_of_here).
    split_and!.
    + rewrite (targets_omap _ _ _ Ht1), (targets_omap _ _ _ Ht2). by rewrite Hmem.
    + by exists f2, r2.
    + intros Hbar.
      apply list_elem_of_filter in Hf1 as [[Hc1 Hs1] Hin1].
      apply list_elem_of_filter in Hf2 as [[Hc2 Hs2] Hin2].
      assert (new_labels f1 tags = new_labels f2 tags) as Heq.
      { apply new_labels_ext. apply (signature_inj f1 f2 tags k); eauto. }
      rewrite Hl1, Hl2 in Heq. by injection Heq.
  - destruct Hinv1 as (f1 & r1 & Hm1 & _). rewrite Hm1, Hinv2 in Hmem.
    by apply Permutation_nil_r in Hmem.
  - destruct Hinv2 as (f2 & r2 & Hm2 & _). rewrite Hm2, Hinv1 in Hmem.
    by apply Permutation_nil_l in Hmem.
  - done.
Qed.

Lemma groupByTags_permutation_witness :
  sample_fleet ≡ₚ reverse sample_fleet /\
  groupByTags 80 sample_fleet ["Name"] = Ok web_db /\
  groupByTags 80 (reverse sample_fleet) ["Name"] = Ok web_db_reversed /\
  (forall i key v, i ∈ sample_fleet -> state_code i = Some 16 -> key ∈ ["Name"] ->
                   getTag i key = Ok v -> has_byte "|" v = false) /\
  forall k,
    match web_db !! k, web_db_reversed !! k with
    | Some g1, Some g2 => Targets g1 ≡ₚ Targets g2 /\ Labels g1 = Labels g2
    | None, None => True
    | _, _ => False
    end.
Proof.
  assert (sample_fleet ≡ₚ reverse sample_fleet) as Hperm
    by (symmetry; apply reverse_Permutation).
  assert (groupByTags 80 sample_fleet ["Name"] = Ok web_db) as H1
    by (vm_compute; reflexivity).
  assert (groupByTags 80 (reverse sample_fleet) ["Name"] = Ok web_db_reversed) as H2
    by (vm_compute; reflexivity).
  assert (forall i key v, i ∈ sample_fleet -> state_code i = Some 16 ->
                          key ∈ ["Name"] -> getTag i key = Ok v ->
                          has_byte "|" v = false) as Hbar.
  { intros i key v Hi _ Hkey Hv. apply list_elem_of_singleton in Hkey as ->.
    unfold sample_fleet in Hi.
    repeat (apply elem_of_cons in Hi as [->|Hi];
            [vm_compute in Hv; injection Hv as <-; reflexivity|]).
    by apply elem_of_nil in Hi. }
  split_and!; [exact Hperm|exact H1|exact H2|exact Hbar|].
  intros k.
  pose proof (groupByTags_permutation 80 ["Name"] _ _ _ _ Hperm H1 H2 k) as Hk.
  destruct (web_db !! k) as [g1|], (web_db_reversed !! k) as [g2|]; [|exact Hk..].
  destruct Hk as (Htargets & _ & Hlabels). split; [exact Htargets|exact (Hlabels Hbar)].
Defined.


(** ** The empty document *)



